(** * jaxley-mech: ion-channel and phototransduction models

    A shallow embedding of [jaxley_mech/channels/benison.py] (Leak, Na, Kdr,
    CaL, CaN) and [jaxley_mech/channels/chan24.py] (Phototransduction), and
    the properties of the channel contract checked against it.

    Conventions of the embedding.
    - A float is a value of [fval]: a real number [Fin r], or [NonFinite]
      for an infinity or a NaN.  Arithmetic on finite values is the exact
      arithmetic of the reals (rounding and overflow are idealised away); a
      division by zero yields [NonFinite], as [jnp] does without raising,
      and [NonFinite] is absorbed by every later operation.
    - A Python [dict] with string keys is a [gmap string fval]; [d[k]] on a
      missing key raises [KeyError k].
    - A method that can raise returns a [result]; evaluation order follows
      the source, statement by statement. *)

From Stdlib Require Import Reals Lra Ascii.
From stdpp Require Import gmap strings.

#[local] Set Warnings "-clear-no-such-hyp".

Local Open Scope R_scope.

(** ** Floats *)

Inductive fval : Type :=
| Fin (r : R)
| NonFinite.

Coercion Fin : R >-> fval.

Declare Scope float_scope.
Delimit Scope float_scope with flt.
Bind Scope float_scope with fval.

Definition fadd (a b : fval) : fval :=
  match a, b with
  | Fin x, Fin y => Fin (x + y)
  | _, _ => NonFinite
  end.

Definition fsub (a b : fval) : fval :=
  match a, b with
  | Fin x, Fin y => Fin (x - y)
  | _, _ => NonFinite
  end.

Definition fmul (a b : fval) : fval :=
  match a, b with
  | Fin x, Fin y => Fin (x * y)
  | _, _ => NonFinite
  end.

Definition fneg (a : fval) : fval :=
  match a with
  | Fin x => Fin (- x)
  | NonFinite => NonFinite
  end.

(** [x / 0] is an infinity or a NaN, never an exception. *)
Definition fdiv (a b : fval) : fval :=
  match a, b with
  | Fin x, Fin y => if Req_dec_T y 0 then NonFinite else Fin (x / y)
  | _, _ => NonFinite
  end.

(** [jnp.exp]. *)
Definition jnp_exp (a : fval) : fval :=
  match a with
  | Fin x => Fin (exp x)
  | NonFinite => NonFinite
  end.

(** [x ** n] for an integer literal [n]: repeated multiplication. *)
Definition fpow_int (a : fval) (n : nat) : fval :=
  match a with
  | Fin x => Fin (x ^ n)
  | NonFinite => NonFinite
  end.

(** [x ** y] for a float exponent [y], with the case analysis of the C
    [pow] function: a positive base gives [exp (y * ln x)]; anything to the
    power [0] is [1]; [0 ** y] is [0] for [y > 0] and an infinity for
    [y < 0]; a negative base is defined at integer exponents only. *)
Definition Rpow (x y : R) : fval :=
  if Rlt_dec 0 x then Fin (Rpower x y)
  else if Req_dec_T y 0 then Fin 1
  else if Req_dec_T x 0 then (if Rlt_dec 0 y then Fin 0 else NonFinite)
  else if Req_dec_T (IZR (Int_part y)) y then Fin (powerRZ x (Int_part y))
  else NonFinite.

Definition fpow (a b : fval) : fval :=
  match a, b with
  | Fin x, Fin y => Rpow x y
  | _, _ => NonFinite
  end.

Infix "+" := fadd : float_scope.
Infix "-" := fsub : float_scope.
Infix "*" := fmul : float_scope.
Infix "/" := fdiv : float_scope.
Notation "- x" := (fneg x) : float_scope.
Infix "^" := fpow_int : float_scope.
Notation "x ** y" := (fpow x y) (at level 30, right associativity) : float_scope.

(** ** Exceptions and dictionaries *)

Inductive exn : Type :=
| KeyError (key : string).

Inductive result (A : Type) : Type :=
| Ok (a : A)
| Raise (e : exn).

Arguments Ok {A} a.
Arguments Raise {A} e.

#[global] Instance result_ret : MRet result := λ A a, Ok a.
#[global] Instance result_bind : MBind result := λ A B f m,
  match m with
  | Ok a => f a
  | Raise e => Raise e
  end.

Abbreviation dict := (gmap string fval).

(** [d[k]]. *)
Definition getitem (d : dict) (k : string) : result fval :=
  match d !! k with
  | Some x => Ok x
  | None => Raise (KeyError k)
  end.

(** A dictionary display [{k1: v1, k2: v2, ...}]: the entries are stored
    left to right, a later entry replacing an earlier one with its key. *)
Definition mkdict (entries : list (string * fval)) : dict :=
  fold_left (λ d kv, <[kv.1 := kv.2]> d) entries ∅.

(** ** The host framework *)

(** Modelled from the spec: the host's [Channel] base class, which is not
    among the sources.  It gives every instance the unique name that the
    channel uses as the prefix of its keys. *)
Record Channel : Type := { _name : string }.

(** Modelled from the spec: the host's exponential-Euler integrator
    [solve_gate_exponential], which is not among the sources.  It returns
    [x_inf + (x - x_inf) * exp(-dt*(alpha+beta))] where
    [x_inf = alpha/(alpha+beta)]. *)
Definition solve_gate_exponential (x dt alpha beta : fval) : fval :=
  let x_inf := (alpha / (alpha + beta))%flt in
  (x_inf + (x - x_inf) * jnp_exp (- dt * (alpha + beta)))%flt.

Local Open Scope float_scope.

(** ** benison.py *)

Module Leak.

Definition channel_params (self : Channel) : dict :=
  let prefix := _name self in
  mkdict [ (prefix +:+ "_gl", Fin 0.25e-9);
           (prefix +:+ "_el", Fin (-60.0)) ].

Definition channel_states (self : Channel) : dict := mkdict [].

Definition update_states (self : Channel) (u : dict) (dt voltages : fval)
    (params : dict) : result dict :=
  Ok (mkdict []).

Definition compute_current (self : Channel) (u : dict) (voltages : fval)
    (params : dict) : result fval :=
  let prefix := _name self in
  gl ← getitem params (prefix +:+ "_gl");
  let leak_conds := gl * 1000 in
  el ← getitem params (prefix +:+ "_el");
  Ok (leak_conds * (voltages - el)).

Definition init_state (self : Channel) (voltages : fval) (params : dict)
    : result dict :=
  Ok (mkdict []).

End Leak.

Module Na.

Definition channel_params (self : Channel) : dict :=
  let prefix := _name self in
  mkdict [ (prefix +:+ "_gNa", Fin 150e-9);
           (prefix +:+ "_vNa", Fin 75.0) ].

Definition channel_states (self : Channel) : dict :=
  let prefix := _name self in
  mkdict [ (prefix +:+ "_m", Fin 0.2); (prefix +:+ "_h", Fin 0.2) ].

Definition m_gate (e : fval) : fval * fval :=
  let alpha := 0.5 * (e + 29) / (1 - jnp_exp (-0.18 * (e + 29))) in
  let beta := 6.0 * jnp_exp (-(e + 45.0) / 15.0) in
  (alpha, beta).

Definition h_gate (e : fval) : fval * fval :=
  let alpha := 0.15 * jnp_exp (-(e + 47.0) / 20.0) in
  let beta := 2.8 / (1 + jnp_exp (-0.1 * (e + 20.0))) in
  (alpha, beta).

Definition update_states (self : Channel) (u : dict) (dt voltages : fval)
    (params : dict) : result dict :=
  let prefix := _name self in
  ms ← getitem u (prefix +:+ "_m");
  hs ← getitem u (prefix +:+ "_h");
  let m_new := uncurry (solve_gate_exponential ms dt) (m_gate voltages) in
  let h_new := uncurry (solve_gate_exponential hs dt) (h_gate voltages) in
  Ok (mkdict [ (prefix +:+ "_m", m_new); (prefix +:+ "_h", h_new) ]).

Definition compute_current (self : Channel) (u : dict) (voltages : fval)
    (params : dict) : result fval :=
  let prefix := _name self in
  ms ← getitem u (prefix +:+ "_m");
  hs ← getitem u (prefix +:+ "_h");
  gNa ← getitem params (prefix +:+ "_gNa");
  let na_conds := gNa * (ms ^ 3) * hs * 1000 in
  vNa ← getitem params (prefix +:+ "_vNa");
  let current := na_conds * (voltages - vNa) in
  Ok current.

Definition init_state (self : Channel) (voltages : fval) (params : dict)
    : result dict :=
  let prefix := _name self in
  let '(alpha_m, beta_m) := m_gate voltages in
  let '(alpha_h, beta_h) := h_gate voltages in
  Ok (mkdict [ (prefix +:+ "_m", alpha_m / (alpha_m + beta_m));
               (prefix +:+ "_h", alpha_h / (alpha_h + beta_h)) ]).

End Na.

Module Kdr.

Definition channel_params (self : Channel) : dict :=
  let prefix := _name self in
  mkdict [ (prefix +:+ "_gKdr", Fin 75e-9);
           ("vK"%string, Fin (-85.0)) ].

Definition channel_states (self : Channel) : dict :=
  let prefix := _name self in
  mkdict [ (prefix +:+ "_m", Fin 0.1) ].

Definition m_gate (e : fval) : fval * fval :=
  let alpha := 0.0065 * (e + 30) / (1 - jnp_exp (-0.3 * e)) in
  let beta := 0.083 * jnp_exp ((e + 15) / 15) in
  (alpha, beta).

Definition update_states (self : Channel) (u : dict) (dt voltages : fval)
    (params : dict) : result dict :=
  let prefix := _name self in
  ms ← getitem u (prefix +:+ "_m");
  let new_m := uncurry (solve_gate_exponential ms dt) (m_gate voltages) in
  Ok (mkdict [ (prefix +:+ "_m", new_m) ]).

Definition compute_current (self : Channel) (u : dict) (voltages : fval)
    (params : dict) : result fval :=
  let prefix := _name self in
  ms ← getitem u (prefix +:+ "_m");
  gKdr ← getitem params (prefix +:+ "_gKdr");
  let kdr_conds := gKdr * (ms ^ 3) * 1000 in
  vK ← getitem params "vK";
  Ok (kdr_conds * (voltages - vK)).

Definition init_state (self : Channel) (voltages : fval) (params : dict)
    : result dict :=
  let prefix := _name self in
  let '(alpha_m, beta_m) := m_gate voltages in
  Ok (mkdict [ (prefix +:+ "_m", alpha_m / (alpha_m + beta_m)) ]).

End Kdr.

Module CaL.

Definition channel_params (self : Channel) : dict :=
  let prefix := _name self in
  mkdict [ (prefix +:+ "_gCaL", Fin 2e-9);
           ("vCa"%string, Fin 45.0) ].

Definition channel_states (self : Channel) : dict :=
  let prefix := _name self in
  mkdict [ (prefix +:+ "_m", Fin 0.1) ].

Definition m_gate (e : fval) : fval * fval :=
  let alpha := 0.061 * (e - 3.0) / (1 - jnp_exp (-(e - 3.0) / 12.5)) in
  let beta := 0.058 * jnp_exp (-(e - 10.0) / 15.0) in
  (alpha, beta).

Definition update_states (self : Channel) (u : dict) (dt voltages : fval)
    (params : dict) : result dict :=
  let prefix := _name self in
  ms ← getitem u (prefix +:+ "_m");
  let m_new := uncurry (solve_gate_exponential ms dt) (m_gate voltages) in
  Ok (mkdict [ (prefix +:+ "_m", m_new) ]).

Definition compute_current (self : Channel) (u : dict) (voltages : fval)
    (params : dict) : result fval :=
  let prefix := _name self in
  ms ← getitem u (prefix +:+ "_m");
  gCaL ← getitem params (prefix +:+ "_gCaL");
  let CaL_conds := gCaL * (ms ^ 2) * 1000 in
  vCa ← getitem params "vCa";
  let current := CaL_conds * (voltages - vCa) in
  Ok current.

Definition init_state (self : Channel) (voltages : fval) (params : dict)
    : result dict :=
  let prefix := _name self in
  let '(alpha_m, beta_m) := m_gate voltages in
  Ok (mkdict [ (prefix +:+ "_m", alpha_m / (alpha_m + beta_m)) ]).

End CaL.

Module CaN.

Definition channel_params (self : Channel) : dict :=
  let prefix := _name self in
  mkdict [ (prefix +:+ "_gCaN", Fin 1.5e-9);
           ("vCa"%string, Fin 45.0) ].

Definition channel_states (self : Channel) : dict :=
  let prefix := _name self in
  mkdict [ (prefix +:+ "_m", Fin 0.2); (prefix +:+ "_h", Fin 0.2) ].

Definition m_gate (e : fval) : fval * fval :=
  let alpha := 0.1 * (e - 20) / (1 - jnp_exp (-0.1 * (e - 20))) in
  let beta := 0.4 * jnp_exp (-(e + 25.0) / 18.0) in
  (alpha, beta).

Definition h_gate (e : fval) : fval * fval :=
  let alpha := 0.01 * jnp_exp (-(e + 50.0) / 10.0) in
  let beta := 0.1 / (1 + jnp_exp (-(e + 17.0) / 17)) in
  (alpha, beta).

Definition update_states (self : Channel) (u : dict) (dt voltages : fval)
    (params : dict) : result dict :=
  let prefix := _name self in
  ms ← getitem u (prefix +:+ "_m");
  hs ← getitem u (prefix +:+ "_h");
  let m_new := uncurry (solve_gate_exponential ms dt) (m_gate voltages) in
  let h_new := uncurry (solve_gate_exponential hs dt) (h_gate voltages) in
  Ok (mkdict [ (prefix +:+ "_m", m_new); (prefix +:+ "_h", h_new) ]).

Definition compute_current (self : Channel) (u : dict) (voltages : fval)
    (params : dict) : result fval :=
  let prefix := _name self in
  ms ← getitem u (prefix +:+ "_m");
  hs ← getitem u (prefix +:+ "_h");
  gCaN ← getitem params (prefix +:+ "_gCaN");
  let CaN_conds := gCaN * (ms ^ 2) * hs * 1000 in
  vCa ← getitem params "vCa";
  let current := CaN_conds * (voltages - vCa) in
  Ok current.

Definition init_state (self : Channel) (voltages : fval) (params : dict)
    : result dict :=
  let prefix := _name self in
  let '(alpha_m, beta_m) := m_gate voltages in
  let '(alpha_h, beta_h) := h_gate voltages in
  Ok (mkdict [ (prefix +:+ "_m", alpha_m / (alpha_m + beta_m));
               (prefix +:+ "_h", alpha_h / (alpha_h + beta_h)) ]).

End CaN.

(** ** chan24.py *)

(** The dictionaries hold [jnp] arrays, as the annotations of the methods
    declare ([Dict[str, jnp.ndarray]]): a division by zero gives a
    non-finite value.  With plain Python numbers stored in their place the
    same division would raise instead; that case is not modelled. *)

Module Phototransduction.

Definition channel_params (self : Channel) : dict :=
  let prefix := _name self in
  mkdict [ (prefix +:+ "_sigma", Fin 22);
           (prefix +:+ "_gamma", Fin 10);
           (prefix +:+ "_phi", Fin 22);
           (prefix +:+ "_eta", Fin 2000);
           (prefix +:+ "_G_dark", Fin 20);
           (prefix +:+ "_k", Fin 0.01);
           (prefix +:+ "_h", Fin 4);
           (prefix +:+ "_Ca_dark", Fin 1);
           (prefix +:+ "_beta", Fin 9);
           (prefix +:+ "_n", Fin 3);
           (prefix +:+ "_q", Fin 1.0);
           (prefix +:+ "_S_max", Fin 30909);
           (prefix +:+ "_K_GC", Fin 0.5);
           (prefix +:+ "_m", Fin 4);
           (prefix +:+ "_I_dark", Fin (20 ^ 3 * 0.01)%R) ].

Definition channel_states (self : Channel) : dict :=
  let prefix := _name self in
  mkdict [ (prefix +:+ "_R", Fin 0.0);
           (prefix +:+ "_P", Fin 90.0);
           (prefix +:+ "_G", Fin 1);
           (prefix +:+ "_S", Fin 1);
           (prefix +:+ "_C", Fin 0.336);
           (prefix +:+ "_Stim", Fin 0.0) ].

Definition current_name (self : Channel) : string := "iPhoto".

Definition update_states (self : Channel) (states : dict) (dt v : fval)
    (params : dict) : result dict :=
  let prefix := _name self in
  let dt := dt / 1000 in
  gamma ← getitem params (prefix +:+ "_gamma");
  sigma ← getitem params (prefix +:+ "_sigma");
  phi ← getitem params (prefix +:+ "_phi");
  eta ← getitem params (prefix +:+ "_eta");
  q ← getitem params (prefix +:+ "_q");
  beta ← getitem params (prefix +:+ "_beta");
  S_max ← getitem params (prefix +:+ "_S_max");
  K_GC ← getitem params (prefix +:+ "_K_GC");
  m ← getitem params (prefix +:+ "_m");
  k ← getitem params (prefix +:+ "_k");
  n ← getitem params (prefix +:+ "_n");
  I_dark ← getitem params (prefix +:+ "_I_dark");
  C_dark ← getitem params (prefix +:+ "_Ca_dark");
  G_dark ← getitem params (prefix +:+ "_G_dark");
  let q := beta * C_dark / I_dark in
  let S_max := eta / phi * G_dark * (1 + (C_dark / K_GC) ** m) in
  Stim ← getitem states (prefix +:+ "_Stim");
  P ← getitem states (prefix +:+ "_P");
  R ← getitem states (prefix +:+ "_R");
  G ← getitem states (prefix +:+ "_G");
  S ← getitem states (prefix +:+ "_S");
  C ← getitem states (prefix +:+ "_C");
  I ← getitem states (current_name self);
  let dR_dt := gamma * Stim - sigma * R in
  let dP_dt := R - phi * P + eta in
  let dG_dt := S - P * G in
  let I := k * G ** n in
  let dC_dt := q * I - beta * C in
  let S_new := S_max / (1 + (C / K_GC) ** m) in
  let R_new := R + dR_dt * dt in
  let P_new := P + dP_dt * dt in
  let G_new := G + dG_dt * dt in
  let C_new := C + dC_dt * dt in
  Ok (mkdict [ (prefix +:+ "_R", R_new);
               (prefix +:+ "_P", P_new);
               (prefix +:+ "_G", G_new);
               (prefix +:+ "_S", S_new);
               (prefix +:+ "_C", C_new);
               (prefix +:+ "_Stim", Stim) ]).

Definition compute_current (self : Channel) (states : dict) (v : fval)
    (params : dict) : result fval :=
  let prefix := _name self in
  G ← getitem states (prefix +:+ "_G");
  n ← getitem params (prefix +:+ "_n");
  k ← getitem params (prefix +:+ "_k");
  let I := - k * G ** n in
  Ok I.

Definition init_state (self : Channel) (v : fval) (params : dict)
    : result dict :=
  let prefix := _name self in
  eta ← getitem params (prefix +:+ "_eta");
  phi ← getitem params (prefix +:+ "_phi");
  G_dark ← getitem params (prefix +:+ "_G_dark");
  Ca_dark ← getitem params (prefix +:+ "_Ca_dark");
  Ok (mkdict [ (prefix +:+ "_R", Fin 0.0);
               (prefix +:+ "_P", eta / phi);
               (prefix +:+ "_G", G_dark);
               (prefix +:+ "_S", G_dark * eta / phi);
               (prefix +:+ "_C", Ca_dark);
               (prefix +:+ "_Stim", Fin 0.0) ]).

End Phototransduction.

(** * Vocabulary of the statements *)

(** [has_underscore s]: the character ["_"] occurs in [s]. *)
Fixpoint has_underscore (s : string) : bool :=
  match s with
  | EmptyString => false
  | String c s' => if Ascii.eqb c "_"%char then true else has_underscore s'
  end.


(** The forward-Euler step of the spec: [value + derivative * dt_seconds]. *)
Definition euler_step (value derivative dt_seconds : fval) : fval :=
  value + derivative * dt_seconds.


(** The channel models of the two source files. *)
Inductive model : Type :=
| Leak_model | Na_model | Kdr_model | CaL_model | CaN_model
| Phototransduction_model.

Definition channel_params_of (c : model) : Channel → dict :=
  match c with
  | Leak_model => Leak.channel_params
  | Na_model => Na.channel_params
  | Kdr_model => Kdr.channel_params
  | CaL_model => CaL.channel_params
  | CaN_model => CaN.channel_params
  | Phototransduction_model => Phototransduction.channel_params
  end.

Definition channel_states_of (c : model) : Channel → dict :=
  match c with
  | Leak_model => Leak.channel_states
  | Na_model => Na.channel_states
  | Kdr_model => Kdr.channel_states
  | CaL_model => CaL.channel_states
  | CaN_model => CaN.channel_states
  | Phototransduction_model => Phototransduction.channel_states
  end.

Definition channel_keys (c : model) (self : Channel) : gset string :=
  dom (channel_params_of c self) ∪ dom (channel_states_of c self).

(** The field names that follow [prefix_] in the keys of a model. *)
Definition param_fields (c : model) : list string :=
  match c with
  | Leak_model => ["gl"; "el"]
  | Na_model => ["gNa"; "vNa"]
  | Kdr_model => ["gKdr"]
  | CaL_model => ["gCaL"]
  | CaN_model => ["gCaN"]
  | Phototransduction_model =>
      ["sigma"; "gamma"; "phi"; "eta"; "G_dark"; "k"; "h"; "Ca_dark"; "beta";
       "n"; "q"; "S_max"; "K_GC"; "m"; "I_dark"]
  end.

Definition state_fields (c : model) : list string :=
  match c with
  | Leak_model => []
  | Na_model | CaN_model => ["m"; "h"]
  | Kdr_model | CaL_model => ["m"]
  | Phototransduction_model => ["R"; "P"; "G"; "S"; "C"; "Stim"]
  end.

(** The parameter keys that carry no prefix. *)
Definition shared_params (c : model) : list string :=
  match c with
  | Kdr_model => ["vK"]
  | CaL_model | CaN_model => ["vCa"]
  | _ => []
  end.

Definition all_models : list model :=
  [Leak_model; Na_model; Kdr_model; CaL_model; CaN_model;
   Phototransduction_model].

Definition all_fields : list string :=
  concat (map (λ c, param_fields c ++ state_fields c) all_models).

(** [field_tail s1 s2]: [s1] is [t ++ "_" ++ s2] for some [t]. *)
Fixpoint field_tail (s1 s2 : string) : bool :=
  match s1 with
  | EmptyString => false
  | String c r =>
      (Ascii.eqb c "_"%char && String.eqb r s2) || field_tail r s2
  end.

Definition prefixed (self : Channel) (field : string) : string :=
  _name self +:+ String "_"%char field.


(** The three operations of the channel contract, by model. *)
Definition update_states_of (c : model)
    : Channel → dict → fval → fval → dict → result dict :=
  match c with
  | Leak_model => Leak.update_states
  | Na_model => Na.update_states
  | Kdr_model => Kdr.update_states
  | CaL_model => CaL.update_states
  | CaN_model => CaN.update_states
  | Phototransduction_model => Phototransduction.update_states
  end.

Definition compute_current_of (c : model)
    : Channel → dict → fval → dict → result fval :=
  match c with
  | Leak_model => Leak.compute_current
  | Na_model => Na.compute_current
  | Kdr_model => Kdr.compute_current
  | CaL_model => CaL.compute_current
  | CaN_model => CaN.compute_current
  | Phototransduction_model => Phototransduction.compute_current
  end.

Definition init_state_of (c : model)
    : Channel → fval → dict → result dict :=
  match c with
  | Leak_model => Leak.init_state
  | Na_model => Na.init_state
  | Kdr_model => Kdr.init_state
  | CaL_model => CaL.init_state
  | CaN_model => CaN.init_state
  | Phototransduction_model => Phototransduction.init_state
  end.

(** The call returned, without raising. *)
Definition is_Ok {A : Type} (r : result A) : Prop := ∃ a, r = Ok a.

(** The voltages at which the rates of a gated model are finite and
    positive: off the zero of the denominator for Na, CaL and CaN; below
    -30 mV or above 0 mV for Kdr.  Leak has no gate; the cascade is not a
    gated model. *)
Definition regular_voltage (c : model) (V : R) : Prop :=
  match c with
  | Leak_model => True
  | Na_model => V ≠ (-29)%R
  | Kdr_model => (V < -30 ∨ 0 < V)%R
  | CaL_model => V ≠ 3%R
  | CaN_model => V ≠ 20%R
  | Phototransduction_model => False
  end.

(** Every declared state of the model has a finite value in [u]. *)
Definition gates_finite (c : model) (self : Channel) (u : dict) : Prop :=
  ∀ k, k ∈ dom (channel_states_of c self) → ∃ x : R, u !! k = Some (Fin x).

(** The exponential-Euler step over the reals. *)
Definition gate_step (a b x dt : R) : R :=
  (a / (a + b) + (x - a / (a + b)) * exp (- dt * (a + b)))%R.

(** * Properties *)

(** ** Keys and dictionary displays *)

Lemma key_suffix_inj (prefix s1 s2 : string) :
  prefix +:+ s1 = prefix +:+ s2 → s1 = s2.
Proof. induction prefix as [|c p IH]; simpl; [done|]. intros [= H]. auto. Qed.

(** Two keys built on one prefix with different literal suffixes differ. *)
Ltac key_neq :=
  let H := fresh in
  intros H; apply key_suffix_inj in H; discriminate H.

Ltac dict_lookup :=
  repeat first
    [ rewrite lookup_insert_eq
    | rewrite lookup_insert_ne by key_neq
    | rewrite lookup_empty ].

Lemma getitem_Some (d : dict) (k : string) (x : fval) :
  d !! k = Some x → getitem d k = Ok x.
Proof. unfold getitem. by intros ->. Qed.

Lemma getitem_None (d : dict) (k : string) :
  d !! k = None → getitem d k = Raise (KeyError k).
Proof. unfold getitem. by intros ->. Qed.

Lemma Fin_eq (x y : R) : x = y → Fin x = Fin y.
Proof. by intros ->. Qed.

Lemma insert_Fin_eq (k : string) (x y : R) (d d' : dict) :
  x = y → d = d' → <[k := Fin x]> d = <[k := Fin y]> d'.
Proof. by intros -> ->. Qed.

Lemma fdiv_Fin (x y : R) : y ≠ 0%R → Fin x / Fin y = Fin (x / y).
Proof. intros Hy. simpl. by destruct (Req_dec_T y 0). Qed.

Lemma fdiv_zero (x y : R) : y = 0%R → Fin x / Fin y = NonFinite.
Proof. intros Hy. simpl. by destruct (Req_dec_T y 0). Qed.

(** ** C5: the leak current at the default parameters *)

(** C5 (as stated, refuted): with the default parameters the leak current at
    0 mV is not 0.015. *)
Lemma Leak_current_at_0mV_is_not_0_015 :
  let leak := {| _name := "Leak" |} in
  Leak.compute_current leak ∅ (Fin 0) (Leak.channel_params leak)
  ≠ Ok (Fin 0.015).
Proof.
  cbv zeta. unfold Leak.compute_current, Leak.channel_params.
  vm_compute getitem. simpl. intros [= H]. lra.
Qed.

(** C5 (amended): with the default parameters (gl = 0.25e-9, el = -60) the
    leak current is exactly 0 at -60 mV and 0.25e-9 * 1000 * 60 = 1.5e-5 at
    0 mV, whatever the instance name and the state dictionary. *)
Theorem Leak_current_default (self : Channel) (u : dict) :
  Leak.compute_current self u (Fin (-60)) (Leak.channel_params self)
    = Ok (Fin 0)
  ∧ Leak.compute_current self u (Fin 0) (Leak.channel_params self)
    = Ok (Fin 1.5e-5).
Proof.
  unfold Leak.compute_current, Leak.channel_params, mkdict, getitem; simpl.
  dict_lookup. simpl. split; f_equal; apply Fin_eq; lra.
Qed.

(** ** C7: no current at the reversal potential *)

(** C7: for each of Na, Kdr, CaL and CaN, whatever the (finite) gate values
    in the state dictionary and whatever the (finite) conductance and
    reversal potential in the parameter dictionary, [compute_current] at a
    voltage equal to the reversal potential ([vNa], [vK] or [vCa]) returns
    exactly zero. *)
Theorem compute_current_at_reversal_is_zero
    (self : Channel) (u params : dict) (ms hs g E : R) :
  let prefix := _name self in
  (u !! (prefix +:+ "_m") = Some (Fin ms) →
   u !! (prefix +:+ "_h") = Some (Fin hs) →
   params !! (prefix +:+ "_gNa") = Some (Fin g) →
   params !! (prefix +:+ "_vNa") = Some (Fin E) →
   Na.compute_current self u (Fin E) params = Ok (Fin 0))
  ∧ (u !! (prefix +:+ "_m") = Some (Fin ms) →
     params !! (prefix +:+ "_gKdr") = Some (Fin g) →
     params !! "vK" = Some (Fin E) →
     Kdr.compute_current self u (Fin E) params = Ok (Fin 0))
  ∧ (u !! (prefix +:+ "_m") = Some (Fin ms) →
     params !! (prefix +:+ "_gCaL") = Some (Fin g) →
     params !! "vCa" = Some (Fin E) →
     CaL.compute_current self u (Fin E) params = Ok (Fin 0))
  ∧ (u !! (prefix +:+ "_m") = Some (Fin ms) →
     u !! (prefix +:+ "_h") = Some (Fin hs) →
     params !! (prefix +:+ "_gCaN") = Some (Fin g) →
     params !! "vCa" = Some (Fin E) →
     CaN.compute_current self u (Fin E) params = Ok (Fin 0)).
Proof.
  intros prefix. repeat split.
  - intros Hm Hh Hg HE. unfold Na.compute_current, getitem. fold prefix.
    rewrite Hm, Hh, Hg, HE. simpl. f_equal. apply Fin_eq. lra.
  - intros Hm Hg HE. unfold Kdr.compute_current, getitem. fold prefix.
    rewrite Hm, Hg, HE. simpl. f_equal. apply Fin_eq. lra.
  - intros Hm Hg HE. unfold CaL.compute_current, getitem. fold prefix.
    rewrite Hm, Hg, HE. simpl. f_equal. apply Fin_eq. lra.
  - intros Hm Hh Hg HE. unfold CaN.compute_current, getitem. fold prefix.
    rewrite Hm, Hh, Hg, HE. simpl. f_equal. apply Fin_eq. lra.
Qed.

(** The four channels at their declared default states and parameters. *)
Lemma compute_current_at_reversal_is_zero_witness :
  Na.compute_current {| _name := "Na" |}
    (Na.channel_states {| _name := "Na" |}) (Fin 75.0)
    (Na.channel_params {| _name := "Na" |}) = Ok (Fin 0)
  ∧ Kdr.compute_current {| _name := "Kdr" |}
    (Kdr.channel_states {| _name := "Kdr" |}) (Fin (-85.0))
    (Kdr.channel_params {| _name := "Kdr" |}) = Ok (Fin 0)
  ∧ CaL.compute_current {| _name := "CaL" |}
    (CaL.channel_states {| _name := "CaL" |}) (Fin 45.0)
    (CaL.channel_params {| _name := "CaL" |}) = Ok (Fin 0)
  ∧ CaN.compute_current {| _name := "CaN" |}
    (CaN.channel_states {| _name := "CaN" |}) (Fin 45.0)
    (CaN.channel_params {| _name := "CaN" |}) = Ok (Fin 0).
Proof.
  repeat split.
  - apply (compute_current_at_reversal_is_zero {| _name := "Na" |}
             _ _ 0.2 0.2 150e-9 75.0); reflexivity.
  - apply (compute_current_at_reversal_is_zero {| _name := "Kdr" |}
             _ _ 0.1 0 75e-9 (-85.0)); reflexivity.
  - apply (compute_current_at_reversal_is_zero {| _name := "CaL" |}
             _ _ 0.1 0 2e-9 45.0); reflexivity.
  - apply (compute_current_at_reversal_is_zero {| _name := "CaN" |}
             _ _ 0.2 0.2 1.5e-9 45.0); reflexivity.
Defined.

(** ** Rate functions *)

Lemma exp_lt_1 (x : R) : (x < 0)%R → (exp x < 1)%R.
Proof. intros H. rewrite <- exp_0. by apply exp_increasing. Qed.

Lemma exp_gt_1 (x : R) : (0 < x)%R → (1 < exp x)%R.
Proof. intros H. rewrite <- exp_0. by apply exp_increasing. Qed.

Lemma one_minus_exp_zero (x : R) : x = 0%R → (1 - exp x = 0)%R.
Proof. intros ->. rewrite exp_0. lra. Qed.

Lemma one_minus_exp_nonzero (x : R) : x ≠ 0%R → (1 - exp x ≠ 0)%R.
Proof.
  intros Hx. destruct (Rtotal_order x 0) as [H | [H | H]]; [| done |].
  - apply exp_lt_1 in H. lra.
  - apply exp_gt_1 in H. lra.
Qed.

(** The rate [c * x / (1 - exp (- k x))] of the activation gates. *)
Lemma ratio_rate_pos (num y : R) :
  (0 < num * - y)%R → (0 < num / (1 - exp y))%R.
Proof.
  intros H. destruct (Rtotal_order y 0) as [Hy | [Hy | Hy]].
  - pose proof (exp_lt_1 _ Hy). apply Rdiv_lt_0_compat; nra.
  - subst. lra.
  - pose proof (exp_gt_1 _ Hy).
    replace (num / (1 - exp y))%R with ((- num) / (exp y - 1))%R
      by (field; lra).
    apply Rdiv_lt_0_compat; nra.
Qed.

(** Divisions whose denominator is visibly nonzero. *)
Ltac denominator_nonzero :=
  first
    [ assumption
    | lra
    | apply one_minus_exp_nonzero; lra
    | match goal with
      | |- (1 + exp ?x ≠ 0)%R => pose proof (exp_pos x); lra
      | |- (1 + Rpower ?x ?y ≠ 0)%R =>
          pose proof (exp_pos (y * ln x)); unfold Rpower; lra
      end ].

Ltac float_simpl :=
  cbn [fadd fsub fmul fneg jnp_exp fpow_int];
  repeat (rewrite fdiv_Fin by denominator_nonzero;
          cbn [fadd fsub fmul fneg jnp_exp fpow_int]).

(** The rate functions, written out at a regular voltage. *)
Lemma Na_m_gate_regular (V : R) :
  V ≠ (-29)%R →
  Na.m_gate (Fin V)
  = (Fin (0.5 * (V + 29) / (1 - exp (-0.18 * (V + 29)))),
     Fin (6.0 * exp (- (V + 45.0) / 15.0))).
Proof. intros HV. unfold Na.m_gate. by float_simpl. Qed.

Lemma Na_h_gate_regular (V : R) :
  Na.h_gate (Fin V)
  = (Fin (0.15 * exp (- (V + 47.0) / 20.0)),
     Fin (2.8 / (1 + exp (-0.1 * (V + 20.0))))).
Proof. unfold Na.h_gate. by float_simpl. Qed.

Lemma Kdr_m_gate_regular (V : R) :
  V ≠ 0%R →
  Kdr.m_gate (Fin V)
  = (Fin (0.0065 * (V + 30) / (1 - exp (-0.3 * V))),
     Fin (0.083 * exp ((V + 15) / 15))).
Proof. intros HV. unfold Kdr.m_gate. by float_simpl. Qed.

Lemma CaL_m_gate_regular (V : R) :
  V ≠ 3%R →
  CaL.m_gate (Fin V)
  = (Fin (0.061 * (V - 3.0) / (1 - exp (- (V - 3.0) / 12.5))),
     Fin (0.058 * exp (- (V - 10.0) / 15.0))).
Proof. intros HV. unfold CaL.m_gate. by float_simpl. Qed.

Lemma CaN_m_gate_regular (V : R) :
  V ≠ 20%R →
  CaN.m_gate (Fin V)
  = (Fin (0.1 * (V - 20) / (1 - exp (-0.1 * (V - 20)))),
     Fin (0.4 * exp (- (V + 25.0) / 18.0))).
Proof. intros HV. unfold CaN.m_gate. by float_simpl. Qed.

Lemma CaN_h_gate_regular (V : R) :
  CaN.h_gate (Fin V)
  = (Fin (0.01 * exp (- (V + 50.0) / 10.0)),
     Fin (0.1 / (1 + exp (- (V + 17.0) / 17)))).
Proof. unfold CaN.h_gate. by float_simpl. Qed.

Lemma Na_m_rates_pos (V : R) :
  V ≠ (-29)%R →
  (0 < 0.5 * (V + 29) / (1 - exp (-0.18 * (V + 29))))%R
  ∧ (0 < 6.0 * exp (- (V + 45.0) / 15.0))%R.
Proof.
  intros HV. split.
  - apply ratio_rate_pos. nra.
  - pose proof (exp_pos (- (V + 45.0) / 15.0)). lra.
Qed.

Lemma Na_h_rates_pos (V : R) :
  (0 < 0.15 * exp (- (V + 47.0) / 20.0))%R
  ∧ (0 < 2.8 / (1 + exp (-0.1 * (V + 20.0))))%R.
Proof.
  split.
  - pose proof (exp_pos (- (V + 47.0) / 20.0)). lra.
  - pose proof (exp_pos (-0.1 * (V + 20.0))). apply Rdiv_lt_0_compat; lra.
Qed.

Lemma CaL_m_rates_pos (V : R) :
  V ≠ 3%R →
  (0 < 0.061 * (V - 3.0) / (1 - exp (- (V - 3.0) / 12.5)))%R
  ∧ (0 < 0.058 * exp (- (V - 10.0) / 15.0))%R.
Proof.
  intros HV. split.
  - apply ratio_rate_pos. nra.
  - pose proof (exp_pos (- (V - 10.0) / 15.0)). lra.
Qed.

Lemma CaN_m_rates_pos (V : R) :
  V ≠ 20%R →
  (0 < 0.1 * (V - 20) / (1 - exp (-0.1 * (V - 20))))%R
  ∧ (0 < 0.4 * exp (- (V + 25.0) / 18.0))%R.
Proof.
  intros HV. split.
  - apply ratio_rate_pos. nra.
  - pose proof (exp_pos (- (V + 25.0) / 18.0)). lra.
Qed.

Lemma CaN_h_rates_pos (V : R) :
  (0 < 0.01 * exp (- (V + 50.0) / 10.0))%R
  ∧ (0 < 0.1 / (1 + exp (- (V + 17.0) / 17)))%R.
Proof.
  split.
  - pose proof (exp_pos (- (V + 50.0) / 10.0)). lra.
  - pose proof (exp_pos (- (V + 17.0) / 17)). apply Rdiv_lt_0_compat; lra.
Qed.

(** ** C3: the singular voltages of the activation rates *)

(** C3 (evaluated at its failing inputs): at the voltage where the
    denominator [1 - exp(...)] of its activation rate vanishes, each of
    [Na.m_gate] (-29 mV), [Kdr.m_gate] (0 mV), [CaL.m_gate] (3 mV) and
    [CaN.m_gate] (20 mV) divides by zero: the returned alpha is not finite. *)
Theorem rate_singularities_are_not_removed :
  (Na.m_gate (Fin (-29))).1 = NonFinite
  ∧ (Kdr.m_gate (Fin 0)).1 = NonFinite
  ∧ (CaL.m_gate (Fin 3)).1 = NonFinite
  ∧ (CaN.m_gate (Fin 20)).1 = NonFinite.
Proof.
  unfold Na.m_gate, Kdr.m_gate, CaL.m_gate, CaN.m_gate.
  cbn [fst fadd fsub fmul fneg jnp_exp].
  repeat split.
  - apply fdiv_zero, one_minus_exp_zero. lra.
  - apply fdiv_zero, one_minus_exp_zero. lra.
  - rewrite (fdiv_Fin _ 12.5) by lra. cbn [fsub jnp_exp].
    apply fdiv_zero, one_minus_exp_zero. lra.
  - apply fdiv_zero, one_minus_exp_zero. lra.
Qed.

(** ** C1: the initial state is the fixed point of the gate update *)

Lemma solve_gate_exponential_Fin (x dt a b : R) :
  (a + b ≠ 0)%R →
  solve_gate_exponential (Fin x) (Fin dt) (Fin a) (Fin b)
  = Fin (a / (a + b) + (x - a / (a + b)) * exp (- dt * (a + b))).
Proof. intros H. unfold solve_gate_exponential. by float_simpl. Qed.

Lemma solve_gate_exponential_fixed (dt a b : R) :
  (a + b ≠ 0)%R →
  solve_gate_exponential (Fin (a / (a + b))) (Fin dt) (Fin a) (Fin b)
  = Fin (a / (a + b)).
Proof.
  intros H. rewrite solve_gate_exponential_Fin by done. apply Fin_eq. lra.
Qed.

(** C1: for each of Na, Kdr, CaL and CaN and every voltage [V] at which the
    rates of its gates are finite with [alpha + beta <> 0], [init_state]
    returns [alpha / (alpha + beta)] for each gate, and [update_states] at
    the same voltage maps that state to itself, for every time step. *)
Theorem init_state_is_fixed_point
    (self : Channel) (V dt : R) (params : dict) :
  let prefix := _name self in
  (∀ am bm ah bh : R,
     Na.m_gate (Fin V) = (Fin am, Fin bm) →
     Na.h_gate (Fin V) = (Fin ah, Fin bh) →
     (am + bm ≠ 0)%R → (ah + bh ≠ 0)%R →
     let x0 := mkdict [ (prefix +:+ "_m", Fin (am / (am + bm)));
                        (prefix +:+ "_h", Fin (ah / (ah + bh))) ] in
     Na.init_state self (Fin V) params = Ok x0
     ∧ Na.update_states self x0 (Fin dt) (Fin V) params = Ok x0)
  ∧ (∀ am bm : R,
     Kdr.m_gate (Fin V) = (Fin am, Fin bm) →
     (am + bm ≠ 0)%R →
     let x0 := mkdict [ (prefix +:+ "_m", Fin (am / (am + bm))) ] in
     Kdr.init_state self (Fin V) params = Ok x0
     ∧ Kdr.update_states self x0 (Fin dt) (Fin V) params = Ok x0)
  ∧ (∀ am bm : R,
     CaL.m_gate (Fin V) = (Fin am, Fin bm) →
     (am + bm ≠ 0)%R →
     let x0 := mkdict [ (prefix +:+ "_m", Fin (am / (am + bm))) ] in
     CaL.init_state self (Fin V) params = Ok x0
     ∧ CaL.update_states self x0 (Fin dt) (Fin V) params = Ok x0)
  ∧ (∀ am bm ah bh : R,
     CaN.m_gate (Fin V) = (Fin am, Fin bm) →
     CaN.h_gate (Fin V) = (Fin ah, Fin bh) →
     (am + bm ≠ 0)%R → (ah + bh ≠ 0)%R →
     let x0 := mkdict [ (prefix +:+ "_m", Fin (am / (am + bm)));
                        (prefix +:+ "_h", Fin (ah / (ah + bh))) ] in
     CaN.init_state self (Fin V) params = Ok x0
     ∧ CaN.update_states self x0 (Fin dt) (Fin V) params = Ok x0).
Proof.
  intros prefix. repeat apply conj.
  - intros am bm ah bh Hm Hh Hsm Hsh x0. split.
    + unfold Na.init_state. rewrite Hm, Hh. fold prefix.
      by float_simpl.
    + unfold Na.update_states, getitem. fold prefix. rewrite Hm, Hh.
      unfold x0 at 1 2, mkdict. cbn [fold_left fst snd]. dict_lookup.
      cbn [mbind result_bind uncurry].
      by rewrite !solve_gate_exponential_fixed by done.
  - intros am bm Hm Hsm x0. split.
    + unfold Kdr.init_state. rewrite Hm. fold prefix.
      by float_simpl.
    + unfold Kdr.update_states, getitem. fold prefix. rewrite Hm.
      unfold x0 at 1, mkdict. cbn [fold_left fst snd]. dict_lookup.
      cbn [mbind result_bind uncurry].
      by rewrite !solve_gate_exponential_fixed by done.
  - intros am bm Hm Hsm x0. split.
    + unfold CaL.init_state. rewrite Hm. fold prefix.
      by float_simpl.
    + unfold CaL.update_states, getitem. fold prefix. rewrite Hm.
      unfold x0 at 1, mkdict. cbn [fold_left fst snd]. dict_lookup.
      cbn [mbind result_bind uncurry].
      by rewrite !solve_gate_exponential_fixed by done.
  - intros am bm ah bh Hm Hh Hsm Hsh x0. split.
    + unfold CaN.init_state. rewrite Hm, Hh. fold prefix.
      by float_simpl.
    + unfold CaN.update_states, getitem. fold prefix. rewrite Hm, Hh.
      unfold x0 at 1 2, mkdict. cbn [fold_left fst snd]. dict_lookup.
      cbn [mbind result_bind uncurry].
      by rewrite !solve_gate_exponential_fixed by done.
Qed.

Lemma Kdr_m_rates_pos (V : R) :
  (V < -30 ∨ 0 < V)%R →
  (0 < 0.0065 * (V + 30) / (1 - exp (-0.3 * V)))%R
  ∧ (0 < 0.083 * exp ((V + 15) / 15))%R.
Proof.
  intros HV. split.
  - apply ratio_rate_pos. nra.
  - pose proof (exp_pos ((V + 15) / 15)). lra.
Qed.

(** The four channels at the resting voltage -65 mV, with a step of 0.025 ms. *)
Lemma init_state_is_fixed_point_witness :
  (∃ x0 : dict,
     Na.init_state {| _name := "Na" |} (Fin (-65)) ∅ = Ok x0
     ∧ Na.update_states {| _name := "Na" |} x0 (Fin 0.025) (Fin (-65)) ∅
       = Ok x0)
  ∧ (∃ x0 : dict,
     Kdr.init_state {| _name := "Kdr" |} (Fin (-65)) ∅ = Ok x0
     ∧ Kdr.update_states {| _name := "Kdr" |} x0 (Fin 0.025) (Fin (-65)) ∅
       = Ok x0)
  ∧ (∃ x0 : dict,
     CaL.init_state {| _name := "CaL" |} (Fin (-65)) ∅ = Ok x0
     ∧ CaL.update_states {| _name := "CaL" |} x0 (Fin 0.025) (Fin (-65)) ∅
       = Ok x0)
  ∧ (∃ x0 : dict,
     CaN.init_state {| _name := "CaN" |} (Fin (-65)) ∅ = Ok x0
     ∧ CaN.update_states {| _name := "CaN" |} x0 (Fin 0.025) (Fin (-65)) ∅
       = Ok x0).
Proof.
  repeat apply conj.
  - destruct (init_state_is_fixed_point {| _name := "Na" |} (-65) 0.025 ∅)
      as (H & _).
    eexists. eapply H.
    + apply Na_m_gate_regular. lra.
    + apply Na_h_gate_regular.
    + pose proof (Na_m_rates_pos (-65)). lra.
    + pose proof (Na_h_rates_pos (-65)). lra.
  - destruct (init_state_is_fixed_point {| _name := "Kdr" |} (-65) 0.025 ∅)
      as (_ & H & _).
    eexists. eapply H.
    + apply Kdr_m_gate_regular. lra.
    + pose proof (Kdr_m_rates_pos (-65)). lra.
  - destruct (init_state_is_fixed_point {| _name := "CaL" |} (-65) 0.025 ∅)
      as (_ & _ & H & _).
    eexists. eapply H.
    + apply CaL_m_gate_regular. lra.
    + pose proof (CaL_m_rates_pos (-65)). lra.
  - destruct (init_state_is_fixed_point {| _name := "CaN" |} (-65) 0.025 ∅)
      as (_ & _ & _ & H).
    eexists. eapply H.
    + apply CaN_m_gate_regular. lra.
    + apply CaN_h_gate_regular.
    + pose proof (CaN_m_rates_pos (-65)). lra.
    + pose proof (CaN_h_rates_pos (-65)). lra.
Defined.

(** ** C9: the range of the gate variables *)

Lemma steady_state_unit_interval (a b : R) :
  (0 <= a)%R → (0 <= b)%R → (0 < a + b)%R → (0 <= a / (a + b) <= 1)%R.
Proof.
  intros Ha Hb Hab. unfold Rdiv.
  pose proof (Rinv_0_lt_compat _ Hab) as Hinv.
  pose proof (Rinv_r (a + b) ltac:(lra)) as H1.
  set (i := (/ (a + b))%R) in *. split; nra.
Qed.

(** One exponential-Euler step is a convex combination of the old value and
    of the steady state: it keeps a gate in [0, 1] as soon as both rates are
    nonnegative and not both zero. *)
Lemma solve_gate_exponential_unit_interval (x dt a b : R) :
  (0 <= a)%R → (0 <= b)%R → (0 < a + b)%R → (0 <= dt)%R →
  (0 <= x <= 1)%R →
  ∃ y : R, solve_gate_exponential (Fin x) (Fin dt) (Fin a) (Fin b) = Fin y
           ∧ (0 <= y <= 1)%R.
Proof.
  intros Ha Hb Hab Hdt Hx. eexists. split.
  { apply solve_gate_exponential_Fin. lra. }
  assert (0 < exp (- dt * (a + b)) <= 1)%R as HE.
  { split; [apply exp_pos|]. rewrite <- exp_0.
    destruct (Req_dec_T dt 0) as [-> | Hne].
    - right. f_equal. lra.
    - left. apply exp_increasing. nra. }
  pose proof (steady_state_unit_interval a b Ha Hb Hab) as Hinf.
  set (E := exp (- dt * (a + b))) in *. set (xi := (a / (a + b))%R) in *.
  split; nra.
Qed.

(** Away from the singular voltage of their activation rate, the gates of
    Na, CaL and CaN stay in [0, 1]; so does the gate of Kdr at the voltages
    where its activation rate is positive. *)
Lemma Na_gates_stay_in_unit_interval
    (self : Channel) (u params : dict) (dt V ms hs : R) :
  let prefix := _name self in
  V ≠ (-29)%R → (0 <= dt)%R →
  u !! (prefix +:+ "_m") = Some (Fin ms) → (0 <= ms <= 1)%R →
  u !! (prefix +:+ "_h") = Some (Fin hs) → (0 <= hs <= 1)%R →
  ∃ ms' hs' : R,
    Na.update_states self u (Fin dt) (Fin V) params
    = Ok (mkdict [ (prefix +:+ "_m", Fin ms'); (prefix +:+ "_h", Fin hs') ])
    ∧ (0 <= ms' <= 1)%R ∧ (0 <= hs' <= 1)%R.
Proof.
  intros prefix HV Hdt Hm Hms Hh Hhs.
  destruct (Na_m_rates_pos V HV) as [Ha Hb].
  destruct (Na_h_rates_pos V) as [Ha' Hb'].
  edestruct (solve_gate_exponential_unit_interval ms dt) as (m' & Em & Hm');
    [| | | exact Hdt | exact Hms |]; [left; exact Ha | left; exact Hb | lra |].
  edestruct (solve_gate_exponential_unit_interval hs dt) as (h' & Eh & Hh');
    [| | | exact Hdt | exact Hhs |];
    [left; exact Ha' | left; exact Hb' | lra |].
  exists m', h'. split; [| done].
  unfold Na.update_states, getitem. fold prefix. rewrite Hm, Hh.
  rewrite Na_m_gate_regular by done. rewrite Na_h_gate_regular.
  cbn [mbind result_bind uncurry]. by rewrite Em, Eh.
Qed.

Lemma CaL_gate_stays_in_unit_interval
    (self : Channel) (u params : dict) (dt V ms : R) :
  let prefix := _name self in
  V ≠ 3%R → (0 <= dt)%R →
  u !! (prefix +:+ "_m") = Some (Fin ms) → (0 <= ms <= 1)%R →
  ∃ ms' : R,
    CaL.update_states self u (Fin dt) (Fin V) params
    = Ok (mkdict [ (prefix +:+ "_m", Fin ms') ])
    ∧ (0 <= ms' <= 1)%R.
Proof.
  intros prefix HV Hdt Hm Hms.
  destruct (CaL_m_rates_pos V HV) as [Ha Hb].
  edestruct (solve_gate_exponential_unit_interval ms dt) as (m' & Em & Hm');
    [| | | exact Hdt | exact Hms |]; [left; exact Ha | left; exact Hb | lra |].
  exists m'. split; [| done].
  unfold CaL.update_states, getitem. fold prefix. rewrite Hm.
  rewrite CaL_m_gate_regular by done.
  cbn [mbind result_bind uncurry]. by rewrite Em.
Qed.

Lemma CaN_gates_stay_in_unit_interval
    (self : Channel) (u params : dict) (dt V ms hs : R) :
  let prefix := _name self in
  V ≠ 20%R → (0 <= dt)%R →
  u !! (prefix +:+ "_m") = Some (Fin ms) → (0 <= ms <= 1)%R →
  u !! (prefix +:+ "_h") = Some (Fin hs) → (0 <= hs <= 1)%R →
  ∃ ms' hs' : R,
    CaN.update_states self u (Fin dt) (Fin V) params
    = Ok (mkdict [ (prefix +:+ "_m", Fin ms'); (prefix +:+ "_h", Fin hs') ])
    ∧ (0 <= ms' <= 1)%R ∧ (0 <= hs' <= 1)%R.
Proof.
  intros prefix HV Hdt Hm Hms Hh Hhs.
  destruct (CaN_m_rates_pos V HV) as [Ha Hb].
  destruct (CaN_h_rates_pos V) as [Ha' Hb'].
  edestruct (solve_gate_exponential_unit_interval ms dt) as (m' & Em & Hm');
    [| | | exact Hdt | exact Hms |]; [left; exact Ha | left; exact Hb | lra |].
  edestruct (solve_gate_exponential_unit_interval hs dt) as (h' & Eh & Hh');
    [| | | exact Hdt | exact Hhs |];
    [left; exact Ha' | left; exact Hb' | lra |].
  exists m', h'. split; [| done].
  unfold CaN.update_states, getitem. fold prefix. rewrite Hm, Hh.
  rewrite CaN_m_gate_regular by done. rewrite CaN_h_gate_regular.
  cbn [mbind result_bind uncurry]. by rewrite Em, Eh.
Qed.

Lemma Kdr_gate_stays_in_unit_interval
    (self : Channel) (u params : dict) (dt V ms : R) :
  let prefix := _name self in
  (V < -30 ∨ 0 < V)%R → (0 <= dt)%R →
  u !! (prefix +:+ "_m") = Some (Fin ms) → (0 <= ms <= 1)%R →
  ∃ ms' : R,
    Kdr.update_states self u (Fin dt) (Fin V) params
    = Ok (mkdict [ (prefix +:+ "_m", Fin ms') ])
    ∧ (0 <= ms' <= 1)%R.
Proof.
  intros prefix HV Hdt Hm Hms.
  destruct (Kdr_m_rates_pos V HV) as [Ha Hb].
  edestruct (solve_gate_exponential_unit_interval ms dt) as (m' & Em & Hm');
    [| | | exact Hdt | exact Hms |]; [left; exact Ha | left; exact Hb | lra |].
  exists m'. split; [| done].
  unfold Kdr.update_states, getitem. fold prefix. rewrite Hm.
  rewrite Kdr_m_gate_regular by lra.
  cbn [mbind result_bind uncurry]. by rewrite Em.
Qed.

Lemma Kdr_rates_at_minus_15 :
  let a := (0.0065 * (-15 + 30) / (1 - exp (-0.3 * -15)))%R in
  let b := (0.083 * exp ((-15 + 15) / 15))%R in
  (a < 0)%R ∧ (0 < a + b)%R.
Proof.
  intros a b.
  assert (b = 0.083%R) as Hb.
  { unfold b. replace ((-15 + 15) / 15)%R with 0%R by lra.
    rewrite exp_0. lra. }
  assert (5.5 < exp (-0.3 * -15))%R as HE.
  { pose proof (exp_ineq1 (-0.3 * -15) ltac:(lra)). lra. }
  assert (/ (1 - exp (-0.3 * -15)) < 0)%R as Hneg.
  { apply Rinv_lt_0_compat. lra. }
  pose proof (Rinv_r (1 - exp (-0.3 * -15)) ltac:(lra)) as Hinv.
  unfold a, Rdiv. rewrite Hb.
  set (i := (/ (1 - exp (-0.3 * -15)))%R) in *.
  set (E := exp (-0.3 * -15)) in *.
  split; nra.
Qed.

(** C9 (evaluated at its failing input): between -30 mV and 0 mV the
    activation rate of [Kdr.m_gate] is negative, because its numerator
    vanishes at -30 mV and its denominator at 0 mV.  At -15 mV a closed gate
    ([m = 0], in [0, 1]) is sent below zero by a step of 1 ms. *)
Theorem Kdr_gate_leaves_unit_interval (self : Channel) (params : dict) :
  let prefix := _name self in
  ∃ m' : R,
    Kdr.update_states self (mkdict [ (prefix +:+ "_m", Fin 0) ])
      (Fin 1) (Fin (-15)) params
    = Ok (mkdict [ (prefix +:+ "_m", Fin m') ])
    ∧ (m' < 0)%R.
Proof.
  intros prefix. destruct Kdr_rates_at_minus_15 as [Ha Hab].
  eexists. split.
  - unfold Kdr.update_states, getitem, mkdict. fold prefix.
    cbn [fold_left fst snd]. dict_lookup.
    rewrite Kdr_m_gate_regular by lra. cbn [mbind result_bind uncurry].
    rewrite solve_gate_exponential_Fin; [reflexivity | lra].
  - cbv zeta in Ha, Hab.
    set (a := (0.0065 * (-15 + 30) / (1 - exp (-0.3 * -15)))%R) in *.
    set (b := (0.083 * exp ((-15 + 15) / 15))%R) in *.
    assert (a / (a + b) < 0)%R as Hinf.
    { pose proof (Rinv_0_lt_compat _ Hab). unfold Rdiv. nra. }
    set (xi := (a / (a + b))%R) in *.
    match goal with
    | |- (_ + _ * exp ?t < 0)%R =>
        assert (exp t < 1)%R as HE by (apply exp_lt_1; lra);
        set (E := exp t) in *
    end.
    nra.
Qed.

(** ** Keys of the phototransduction channel *)

Lemma has_underscore_key (prefix suffix : string) :
  has_underscore (prefix +:+ String "_"%char suffix) = true.
Proof.
  induction prefix as [|c p IH]; simpl; [done|]. by destruct (Ascii.eqb c "_"%char).
Qed.

(** A prefixed key is not the name of the current, which has no underscore. *)
Lemma prefixed_key_not_iPhoto (prefix suffix : string) :
  prefix +:+ String "_"%char suffix ≠ "iPhoto".
Proof.
  intros H. apply (f_equal has_underscore) in H.
  rewrite has_underscore_key in H. discriminate H.
Qed.

Ltac photo_lookup :=
  repeat first
    [ rewrite lookup_insert_eq
    | rewrite lookup_insert_ne by key_neq
    | rewrite lookup_insert_ne by apply prefixed_key_not_iPhoto
    | rewrite lookup_insert_ne
        by (apply not_eq_sym, prefixed_key_not_iPhoto)
    | rewrite lookup_empty ].

(** ** C10: the read of the current entry *)

Lemma bind_raises {A B : Type} (m : result A) (f : A → result B) :
  (∀ a, ∃ k, f a = Raise (KeyError k)) →
  ∃ k, m ≫= f = Raise (KeyError k).
Proof. intros Hf. destruct m as [a | [k]]; simpl; eauto. Qed.

(** C10: [update_states] reads [states["iPhoto"]]: on every state dictionary
    without that key it raises a [KeyError], and does so on the dictionary
    returned by [init_state] and on the declared [channel_states], which
    have no such entry; the value read has no influence on the result. *)
Theorem update_states_reads_iPhoto
    (self : Channel) (dt v : fval) (params : dict) :
  (∀ states : dict,
     states !! "iPhoto" = None →
     ∃ k, Phototransduction.update_states self states dt v params
          = Raise (KeyError k))
  ∧ (∃ s0 : dict,
       Phototransduction.init_state self v
         (Phototransduction.channel_params self) = Ok s0
       ∧ s0 !! "iPhoto" = None
       ∧ Phototransduction.update_states self s0 dt v
           (Phototransduction.channel_params self)
         = Raise (KeyError "iPhoto"))
  ∧ (Phototransduction.channel_states self !! "iPhoto" = None
     ∧ Phototransduction.update_states self
         (Phototransduction.channel_states self) dt v
         (Phototransduction.channel_params self)
       = Raise (KeyError "iPhoto"))
  ∧ (∀ (states : dict) (i i' : fval),
       Phototransduction.update_states self (<["iPhoto" := i]> states)
         dt v params
       = Phototransduction.update_states self (<["iPhoto" := i']> states)
           dt v params).
Proof.
  repeat apply conj.
  - intros states Hno. unfold Phototransduction.update_states.
    unfold Phototransduction.current_name.
    repeat
      match goal with
      | |- ∃ k, getitem ?d ?key ≫= _ = _ =>
          first [ rewrite (getitem_None d key) by done; by eexists
                | apply bind_raises; intros ? ]
      end.
  - eexists. split; [| split].
    + unfold Phototransduction.init_state, Phototransduction.channel_params.
      unfold getitem, mkdict. cbn [fold_left fst snd]. photo_lookup.
      cbn [mbind result_bind]. reflexivity.
    + cbn [fold_left fst snd]. photo_lookup. done.
    + unfold Phototransduction.update_states, Phototransduction.channel_params.
      unfold Phototransduction.current_name.
      unfold getitem, mkdict. cbn [fold_left fst snd]. photo_lookup.
      cbn [mbind result_bind]. photo_lookup. done.
  - unfold Phototransduction.channel_states, mkdict.
    cbn [fold_left fst snd]. photo_lookup. done.
  - unfold Phototransduction.update_states, Phototransduction.channel_params.
    unfold Phototransduction.channel_states, Phototransduction.current_name.
    unfold getitem, mkdict. cbn [fold_left fst snd]. photo_lookup.
    cbn [mbind result_bind]. photo_lookup. done.
  - intros states i i'. unfold Phototransduction.update_states.
    unfold Phototransduction.current_name, getitem. photo_lookup.
    reflexivity.
Qed.

(** The empty state dictionary, which has no current entry. *)
Lemma update_states_reads_iPhoto_witness :
  ∃ k, Phototransduction.update_states {| _name := "Phototransduction" |}
         ∅ (Fin 0.025) (Fin (-40))
         (Phototransduction.channel_params {| _name := "Phototransduction" |})
       = Raise (KeyError k).
Proof.
  destruct (update_states_reads_iPhoto {| _name := "Phototransduction" |}
              (Fin 0.025) (Fin (-40))
              (Phototransduction.channel_params
                 {| _name := "Phototransduction" |})) as (H & _).
  apply H. reflexivity.
Defined.

(** ** C8: the supplied q and S_max are discarded *)

(** [update_states] having returned, every entry it read was present. *)
Ltac reads_succeeded H :=
  repeat match type of H with
         | context [match ?d !! ?k with _ => _ end] =>
             destruct (d !! k); cbn [mbind result_bind] in H;
             [| discriminate H]
         end.

(** C8: two parameter dictionaries that both supply [q] and [S_max] and
    agree on every other entry give the same result of [update_states] on
    the same state, time step and voltage; and whatever is supplied for
    them, the call uses [q = beta * Ca_dark / I_dark] and
    [S_max = eta / phi * G_dark * (1 + (Ca_dark / K_GC) ** m)], recomputed
    from the other parameters: the returned S is
    [S_max / (1 + (C / K_GC) ** m)] and the returned C is
    [C + (q * (k * G ** n) - beta * C) * (dt / 1000)] with those two
    values. *)
Theorem update_states_ignores_q_and_S_max
    (self : Channel) (states : dict) (dt v : fval) (p p' : dict) :
  let prefix := _name self in
  (∀ k, k ≠ prefix +:+ "_q" → k ≠ prefix +:+ "_S_max" → p !! k = p' !! k) →
  is_Some (p !! (prefix +:+ "_q")) →
  is_Some (p' !! (prefix +:+ "_q")) →
  is_Some (p !! (prefix +:+ "_S_max")) →
  is_Some (p' !! (prefix +:+ "_S_max")) →
  Phototransduction.update_states self states dt v p
  = Phototransduction.update_states self states dt v p'
  ∧ ∀ (new : dict)
      (eta phi beta K_GC m k n I_dark C_dark G_dark G C : fval),
      p !! (prefix +:+ "_eta") = Some eta →
      p !! (prefix +:+ "_phi") = Some phi →
      p !! (prefix +:+ "_beta") = Some beta →
      p !! (prefix +:+ "_K_GC") = Some K_GC →
      p !! (prefix +:+ "_m") = Some m →
      p !! (prefix +:+ "_k") = Some k →
      p !! (prefix +:+ "_n") = Some n →
      p !! (prefix +:+ "_I_dark") = Some I_dark →
      p !! (prefix +:+ "_Ca_dark") = Some C_dark →
      p !! (prefix +:+ "_G_dark") = Some G_dark →
      states !! (prefix +:+ "_G") = Some G →
      states !! (prefix +:+ "_C") = Some C →
      Phototransduction.update_states self states dt v p' = Ok new →
      let q := beta * C_dark / I_dark in
      let S_max := eta / phi * G_dark * (1 + (C_dark / K_GC) ** m) in
      new !! (prefix +:+ "_S") = Some (S_max / (1 + (C / K_GC) ** m))
      ∧ new !! (prefix +:+ "_C")
        = Some (C + (q * (k * G ** n) - beta * C) * (dt / 1000)).
Proof.
  intros prefix Hagree [q Hq] [q' Hq'] [s Hs] [s' Hs'].
  assert (Phototransduction.update_states self states dt v p
          = Phototransduction.update_states self states dt v p') as Hsame.
  { unfold Phototransduction.update_states, getitem. fold prefix.
    rewrite Hq, Hq', Hs, Hs'.
    rewrite !(Hagree (prefix +:+ "_gamma")) by key_neq.
    rewrite !(Hagree (prefix +:+ "_sigma")) by key_neq.
    rewrite !(Hagree (prefix +:+ "_phi")) by key_neq.
    rewrite !(Hagree (prefix +:+ "_eta")) by key_neq.
    rewrite !(Hagree (prefix +:+ "_beta")) by key_neq.
    rewrite !(Hagree (prefix +:+ "_K_GC")) by key_neq.
    rewrite !(Hagree (prefix +:+ "_m")) by key_neq.
    rewrite !(Hagree (prefix +:+ "_k")) by key_neq.
    rewrite !(Hagree (prefix +:+ "_n")) by key_neq.
    rewrite !(Hagree (prefix +:+ "_I_dark")) by key_neq.
    rewrite !(Hagree (prefix +:+ "_Ca_dark")) by key_neq.
    rewrite !(Hagree (prefix +:+ "_G_dark")) by key_neq.
    reflexivity. }
  split; [exact Hsame |].
  intros new eta phi beta K_GC m k n I_dark C_dark G_dark G C
    Heta Hphi Hbeta HK Hm Hk Hn HI HCd HGd HG HC Hup.
  rewrite <- Hsame in Hup.
  unfold Phototransduction.update_states, getitem in Hup.
  unfold Phototransduction.current_name in Hup. fold prefix in Hup.
  cbv zeta in Hup.
  rewrite Hq, Hs, Heta, Hphi, Hbeta, HK, Hm, Hk, Hn, HI, HCd, HGd, HG, HC
    in Hup.
  reads_succeeded Hup.
  apply (f_equal (λ res : result dict,
                    match res with
                    | Ok d => (d !! (prefix +:+ "_S"), d !! (prefix +:+ "_C"))
                    | Raise _ => (None, None)
                    end)) in Hup.
  revert Hup. unfold mkdict. cbn [fold_left fst snd]. photo_lookup.
  intros [= HS' HC']. by rewrite <- HS', <- HC'.
Qed.

(** The default parameters against the same dictionary with other values
    stored for [q] and [S_max]: the two runs agree, and the run on the
    altered dictionary uses the recomputed values. *)
Lemma update_states_ignores_q_and_S_max_witness :
  let self := {| _name := "Phototransduction" |} in
  let p := Phototransduction.channel_params self in
  let p' := <["Phototransduction_q" := Fin 0.5]>
              (<["Phototransduction_S_max" := Fin 0]> p) in
  let states := <["iPhoto" := Fin 0]> (Phototransduction.channel_states self) in
  Phototransduction.update_states self states (Fin 0.025) (Fin (-40)) p
  = Phototransduction.update_states self states (Fin 0.025) (Fin (-40)) p'
  ∧ ∃ new : dict,
      Phototransduction.update_states self states (Fin 0.025) (Fin (-40)) p'
      = Ok new
      ∧ new !! "Phototransduction_S"
        = Some (Fin 2000 / Fin 22 * Fin 20
                * (Fin 1 + (Fin 1 / Fin 0.5) ** Fin 4)
                / (Fin 1 + (Fin 0.336 / Fin 0.5) ** Fin 4))
      ∧ new !! "Phototransduction_C"
        = Some (Fin 0.336
                + (Fin 9 * Fin 1 / Fin (20 ^ 3 * 0.01)
                   * (Fin 0.01 * Fin 1 ** Fin 3) - Fin 9 * Fin 0.336)
                  * (Fin 0.025 / Fin 1000)).
Proof.
  intros self p p' states.
  destruct (update_states_ignores_q_and_S_max self states
              (Fin 0.025) (Fin (-40)) p p') as [Hsame Hvalues].
  - intros k Hq Hs. unfold p'. simpl in Hq, Hs.
    by rewrite !lookup_insert_ne by done.
  - by eexists.
  - by eexists.
  - by eexists.
  - by eexists.
  - split; [exact Hsame |]. eexists. split; [reflexivity |].
    eapply (Hvalues _ (Fin 2000) (Fin 22) (Fin 9) (Fin 0.5) (Fin 4)
              (Fin 0.01) (Fin 3) (Fin (20 ^ 3 * 0.01)) (Fin 1) (Fin 20)
              (Fin 1) (Fin 0.336)); reflexivity.
Defined.

(** ** C6: the dark state is a steady state *)

Lemma Rpow_pos (x y : R) : (0 < x)%R → Rpow x y = Fin (Rpower x y).
Proof. intros Hx. unfold Rpow. by destruct (Rlt_dec 0 x). Qed.

Lemma Rpower_gt_0 (x y : R) : (0 < Rpower x y)%R.
Proof. unfold Rpower. apply exp_pos. Qed.

Lemma Rpower_nat (x : R) (n : nat) (y : R) :
  (0 < x)%R → y = INR n → Rpower x y = (x ^ n)%R.
Proof. intros Hx ->. by apply Rpower_pow. Qed.

(** C6: with the default parameters, [init_state] returns the dark state
    (R = 0, P = eta/phi, G = G_dark, S = G_dark*eta/phi, C = Ca_dark,
    Stim = 0) and, once the host has added the current entry that
    [update_states] reads, [update_states] returns that very state for
    every time step: all five variables are unchanged. *)
Theorem dark_state_is_fixed_point (self : Channel) (v : fval) :
  let prefix := _name self in
  let params := Phototransduction.channel_params self in
  let dark := mkdict [ (prefix +:+ "_R", Fin 0);
                       (prefix +:+ "_P", Fin (2000 / 22));
                       (prefix +:+ "_G", Fin 20);
                       (prefix +:+ "_S", Fin (20 * 2000 / 22));
                       (prefix +:+ "_C", Fin 1);
                       (prefix +:+ "_Stim", Fin 0) ] in
  Phototransduction.init_state self v params = Ok dark
  ∧ ∀ (dt : R) (i : fval),
      Phototransduction.update_states self (<["iPhoto" := i]> dark)
        (Fin dt) v params
      = Ok dark.
Proof.
  intros prefix params dark. split.
  - unfold Phototransduction.init_state, params.
    unfold Phototransduction.channel_params, getitem, mkdict. fold prefix.
    cbn [fold_left fst snd]. photo_lookup. cbn [mbind result_bind].
    float_simpl. unfold dark, mkdict. cbn [fold_left fst snd].
    repeat f_equal; lra.
  - intros dt i. unfold Phototransduction.update_states, params.
    unfold Phototransduction.channel_params, Phototransduction.current_name.
    unfold dark at 1 2 3 4 5 6 7.
    unfold getitem, mkdict. fold prefix.
    cbn [fold_left fst snd]. photo_lookup. cbn [mbind result_bind].
    float_simpl. cbn [fpow]. rewrite !Rpow_pos by lra. float_simpl.
    rewrite (Rpower_nat 20 3) by (simpl; lra).
    pose proof (Rpower_gt_0 (1 / 0.5) 4) as HX.
    set (X := Rpower (1 / 0.5) 4) in *.
    unfold dark, mkdict. cbn [fold_left fst snd].
    f_equal. repeat (apply insert_Fin_eq; [| try reflexivity]).
    + lra.
    + replace (20 ^ 3 * 0.01)%R with 80%R by lra.
      replace (0.01 * 20 ^ 3)%R with 80%R by lra. lra.
    + field. lra.
    + lra.
    + lra.
    + lra.
Qed.

(** ** C2: the update of the cascade *)

(** C2 (as stated, refuted): S is not advanced by
    [value + derivative * dt_seconds].  With the declared default states and
    parameters and a zero time step, such a step would return the old
    S = 1 whatever the derivative; [update_states] does not. *)
Lemma S_is_not_advanced_by_an_Euler_step :
  let self := {| _name := "Phototransduction" |} in
  let states :=
    <["iPhoto" := Fin 0]> (Phototransduction.channel_states self) in
  ¬ ∃ (dS_dt : R) (new : dict),
      Phototransduction.update_states self states (Fin 0) (Fin (-40))
        (Phototransduction.channel_params self) = Ok new
      ∧ new !! "Phototransduction_S"
        = Some (euler_step (Fin 1) (Fin dS_dt) (Fin 0 / 1000)).
Proof.
  intros self states (dS_dt & new & Hup & HS). revert Hup HS.
  unfold Phototransduction.update_states, Phototransduction.channel_params.
  unfold states, Phototransduction.channel_states.
  unfold Phototransduction.current_name, self, euler_step.
  unfold getitem, mkdict. cbn [fold_left fst snd _name].
  photo_lookup. cbn [mbind result_bind].
  float_simpl. cbn [fpow]. rewrite !Rpow_pos by lra. float_simpl.
  intros [= <-]. cbn [String.app].
  rewrite lookup_insert_ne by done. rewrite lookup_insert_ne by done.
  rewrite lookup_insert_eq. intros [= HS].
  pose proof (Rpower_gt_0 (1 / 0.5) 4) as HX1.
  pose proof (Rpower_gt_0 (0.336 / 0.5) 4) as HX0.
  assert (Rpower (0.336 / 0.5) 4 < 1)%R as HX2.
  { rewrite (Rpower_nat _ 4) by (simpl; lra). nra. }
  set (X1 := Rpower (1 / 0.5) 4) in *.
  set (X2 := Rpower (0.336 / 0.5) 4) in *.
  assert (1818 < 2000 / 22 * 20 * (1 + X1))%R as Hnum by nra.
  assert (909 < 2000 / 22 * 20 * (1 + X1) / (1 + X2))%R as Hbig.
  { pose proof (Rinv_0_lt_compat (1 + X2) ltac:(lra)) as Hi.
    pose proof (Rinv_r (1 + X2) ltac:(lra)) as Hr.
    unfold Rdiv. set (i := (/ (1 + X2))%R) in *.
    assert (0.5 < i)%R by nra. nra. }
  lra.
Qed.

(** C2 (amended): [update_states] rescales the time step to seconds
    ([dt / 1000]), computes the derivatives of R, P, G and C from the old
    values of the state and advances those four variables by
    [value + derivative * dt_seconds]; S is not integrated but set to
    [S_max / (1 + (C / K_GC) ** m)], computed from the old C, and Stim is
    passed through.  No variable's update reads an already-updated value. *)
Theorem update_states_is_explicit
    (self : Channel) (states params : dict) (dt v : fval)
    (gamma sigma phi eta q0 beta S_max0 K_GC m k n I_dark C_dark G_dark
     Stim P R G S C I0 : fval) :
  let prefix := _name self in
  params !! (prefix +:+ "_gamma") = Some gamma →
  params !! (prefix +:+ "_sigma") = Some sigma →
  params !! (prefix +:+ "_phi") = Some phi →
  params !! (prefix +:+ "_eta") = Some eta →
  params !! (prefix +:+ "_q") = Some q0 →
  params !! (prefix +:+ "_beta") = Some beta →
  params !! (prefix +:+ "_S_max") = Some S_max0 →
  params !! (prefix +:+ "_K_GC") = Some K_GC →
  params !! (prefix +:+ "_m") = Some m →
  params !! (prefix +:+ "_k") = Some k →
  params !! (prefix +:+ "_n") = Some n →
  params !! (prefix +:+ "_I_dark") = Some I_dark →
  params !! (prefix +:+ "_Ca_dark") = Some C_dark →
  params !! (prefix +:+ "_G_dark") = Some G_dark →
  states !! (prefix +:+ "_Stim") = Some Stim →
  states !! (prefix +:+ "_P") = Some P →
  states !! (prefix +:+ "_R") = Some R →
  states !! (prefix +:+ "_G") = Some G →
  states !! (prefix +:+ "_S") = Some S →
  states !! (prefix +:+ "_C") = Some C →
  states !! "iPhoto" = Some I0 →
  let dt_seconds := dt / 1000 in
  let q := beta * C_dark / I_dark in
  let S_max := eta / phi * G_dark * (1 + (C_dark / K_GC) ** m) in
  let dR_dt := gamma * Stim - sigma * R in
  let dP_dt := R - phi * P + eta in
  let dG_dt := S - P * G in
  let dC_dt := q * (k * G ** n) - beta * C in
  Phototransduction.update_states self states dt v params
  = Ok (mkdict [ (prefix +:+ "_R", euler_step R dR_dt dt_seconds);
                 (prefix +:+ "_P", euler_step P dP_dt dt_seconds);
                 (prefix +:+ "_G", euler_step G dG_dt dt_seconds);
                 (prefix +:+ "_S", S_max / (1 + (C / K_GC) ** m));
                 (prefix +:+ "_C", euler_step C dC_dt dt_seconds);
                 (prefix +:+ "_Stim", Stim) ]).
Proof.
  intros prefix Hgamma Hsigma Hphi Heta Hq Hbeta HSmax HKGC Hm Hk Hn
    HIdark HCdark HGdark HStim HP HR HG HS HC HI.
  unfold Phototransduction.update_states, Phototransduction.current_name.
  unfold getitem. fold prefix.
  rewrite Hgamma, Hsigma, Hphi, Heta, Hq, Hbeta, HSmax, HKGC, Hm, Hk, Hn.
  rewrite HIdark, HCdark, HGdark, HStim, HP, HR, HG, HS, HC, HI.
  reflexivity.
Qed.

(** The declared default states, with the current entry, and parameters. *)
Lemma update_states_is_explicit_witness :
  let self := {| _name := "Phototransduction" |} in
  ∃ new : dict,
    Phototransduction.update_states self
      (<["iPhoto" := Fin 0]> (Phototransduction.channel_states self))
      (Fin 0.025) (Fin (-40)) (Phototransduction.channel_params self)
    = Ok new
    ∧ new !! "Phototransduction_R"
      = Some (euler_step (Fin 0.0) (10 * Fin 0.0 - 22 * Fin 0.0)
                (Fin 0.025 / 1000)).
Proof.
  intros self. eexists. split.
  - apply (update_states_is_explicit self _ _ (Fin 0.025) (Fin (-40))
             (Fin 10) (Fin 22) (Fin 22) (Fin 2000) (Fin 1.0) (Fin 9)
             (Fin 30909) (Fin 0.5) (Fin 4) (Fin 0.01) (Fin 3)
             (Fin (20 ^ 3 * 0.01)) (Fin 1) (Fin 20)
             (Fin 0.0) (Fin 90.0) (Fin 0.0) (Fin 1) (Fin 1) (Fin 0.336)
             (Fin 0));
      reflexivity.
  - reflexivity.
Defined.

(** ** C4: the keys of the dictionaries *)

Lemma dom_channel_params (c : model) (self : Channel) :
  dom (channel_params_of c self)
  = list_to_set (shared_params c ++ map (prefixed self) (param_fields c)).
Proof.
  destruct c; unfold channel_params_of, prefixed;
    unfold Leak.channel_params, Na.channel_params, Kdr.channel_params,
      CaL.channel_params, CaN.channel_params,
      Phototransduction.channel_params, mkdict;
    cbn [fold_left fst snd shared_params param_fields map app list_to_set];
    rewrite ?dom_insert_L, dom_empty_L; set_solver.
Qed.

Lemma dom_channel_states (c : model) (self : Channel) :
  dom (channel_states_of c self)
  = list_to_set (map (prefixed self) (state_fields c)).
Proof.
  destruct c; unfold channel_states_of, prefixed;
    unfold Leak.channel_states, Na.channel_states, Kdr.channel_states,
      CaL.channel_states, CaN.channel_states,
      Phototransduction.channel_states, mkdict;
    cbn [fold_left fst snd state_fields map list_to_set];
    rewrite ?dom_insert_L, dom_empty_L; set_solver.
Qed.

Lemma field_tail_spec (t s1 s2 : string) :
  s1 = t +:+ String "_"%char s2 → field_tail s1 s2 = true.
Proof.
  revert s1. induction t as [|c t IH]; intros s1 ->; simpl.
  - by rewrite String.eqb_refl.
  - rewrite (IH _ eq_refl). apply orb_true_r.
Qed.

(** Two keys [p1_s1] and [p2_s2] are equal only if the prefixes are equal or
    one field contains the other after an underscore. *)
Lemma prefixed_key_cases (p1 p2 s1 s2 : string) :
  p1 +:+ String "_"%char s1 = p2 +:+ String "_"%char s2 →
  p1 = p2 ∨ field_tail s1 s2 = true ∨ field_tail s2 s1 = true.
Proof.
  revert p2. induction p1 as [|c p1 IH]; intros [|c' p2]; simpl.
  - auto.
  - intros H. injection H as Hc Hs. right. left. by eapply field_tail_spec.
  - intros H. injection H as Hc Hs. right. right.
    by eapply field_tail_spec.
  - intros H. injection H as Hc Hs. destruct (IH _ Hs) as [-> | ?]; auto.
    left. by rewrite Hc.
Qed.

(** No field name of any model is the tail of another after an underscore. *)
Lemma fields_have_no_field_tail :
  forallb (λ s1, forallb (λ s2, negb (field_tail s1 s2)) all_fields)
    all_fields = true.
Proof. vm_compute. reflexivity. Qed.

Lemma field_in_all_fields (c : model) (s : string) :
  s ∈ param_fields c ++ state_fields c → In s all_fields.
Proof.
  intros H. apply list_elem_of_In in H. unfold all_fields.
  apply in_concat. exists (param_fields c ++ state_fields c). split; [| done].
  apply in_map_iff. exists c. split; [done |]. destruct c; simpl; tauto.
Qed.

Lemma prefixed_inj_name (c c' : model) (self self' : Channel) (s s' : string) :
  s ∈ param_fields c ++ state_fields c →
  s' ∈ param_fields c' ++ state_fields c' →
  prefixed self s = prefixed self' s' → _name self = _name self'.
Proof.
  intros Hs Hs' Heq. apply field_in_all_fields in Hs, Hs'.
  pose proof fields_have_no_field_tail as Hall.
  rewrite forallb_forall in Hall.
  pose proof (Hall _ Hs) as H1. pose proof (Hall _ Hs') as H2.
  rewrite forallb_forall in H1, H2.
  specialize (H1 _ Hs'). specialize (H2 _ Hs).
  destruct (prefixed_key_cases _ _ _ _ Heq) as [? | [H | H]]; [done | |].
  - by rewrite H in H1.
  - by rewrite H in H2.
Qed.

Lemma prefixed_not_shared (c : model) (self : Channel) (s k : string) :
  k ∈ shared_params c → prefixed self s ≠ k.
Proof.
  intros Hk Heq. apply (f_equal has_underscore) in Heq.
  unfold prefixed in Heq. rewrite has_underscore_key in Heq.
  destruct c; simpl in Hk; set_solver.
Qed.

Lemma elem_of_channel_params (c : model) (self : Channel) (k : string) :
  k ∈ dom (channel_params_of c self) →
  k ∈ shared_params c ∨ ∃ s, s ∈ param_fields c ∧ k = prefixed self s.
Proof.
  rewrite dom_channel_params, elem_of_list_to_set, elem_of_app.
  intros [H | H]; [by left | right].
  apply list_elem_of_fmap in H as (s & -> & Hs). eauto.
Qed.

Lemma elem_of_channel_states (c : model) (self : Channel) (k : string) :
  k ∈ dom (channel_states_of c self) →
  ∃ s, s ∈ state_fields c ∧ k = prefixed self s.
Proof.
  rewrite dom_channel_states, elem_of_list_to_set.
  intros H. apply list_elem_of_fmap in H as (s & -> & Hs). eauto.
Qed.

Lemma elem_of_channel_keys (c : model) (self : Channel) (k : string) :
  k ∈ channel_keys c self →
  k ∈ shared_params c
  ∨ ∃ s, s ∈ param_fields c ++ state_fields c ∧ k = prefixed self s.
Proof.
  unfold channel_keys. rewrite elem_of_union. intros [H | H].
  - apply elem_of_channel_params in H as [H | (s & Hs & ->)]; [by left |].
    right. exists s. split; [| done]. apply elem_of_app. by left.
  - apply elem_of_channel_states in H as (s & Hs & ->).
    right. exists s. split; [| done]. apply elem_of_app. by right.
Qed.

(** C4 (as stated, refuted): the reversal potential of Kdr is stored under
    the key ["vK"], which does not begin with the instance name; two Kdr
    instances with distinct names both have it. *)
Lemma Kdr_instances_share_vK :
  let a := {| _name := "KdrA" |} in
  let b := {| _name := "KdrB" |} in
  _name a ≠ _name b
  ∧ "vK" ∈ dom (Kdr.channel_params a)
  ∧ "vK" ∈ dom (Kdr.channel_params b)
  ∧ String.prefix (_name a) "vK" = false.
Proof.
  cbv zeta. split; [done |]. split; [| split].
  - apply elem_of_dom. by eexists.
  - apply elem_of_dom. by eexists.
  - reflexivity.
Qed.

(** C4 (amended): for every channel model, every key of [channel_states]
    is the instance name followed by ["_"] and a field name, and so is every
    key of [channel_params] other than the reversal potentials ["vK"] (Kdr)
    and ["vCa"] (CaL, CaN), which carry no prefix.  Two instances with
    distinct names therefore share no state key, and share no parameter key
    other than ["vK"] or ["vCa"]. *)
Theorem keys_are_prefixed_except_shared_reversal
    (c c' : model) (self self' : Channel) (k : string) :
  (k ∈ dom (channel_states_of c self) →
     ∃ field, k = _name self +:+ "_" +:+ field)
  ∧ (k ∈ dom (channel_params_of c self) →
     ((c = Kdr_model ∧ k = "vK")
      ∨ (((c = CaL_model ∨ c = CaN_model) ∧ k = "vCa")
         ∨ (∃ field, k = _name self +:+ "_" +:+ field))))
  ∧ (_name self ≠ _name self' →
     k ∈ channel_keys c self → k ∈ channel_keys c' self' →
     (k ∉ dom (channel_states_of c self)) ∧ (k = "vK" ∨ k = "vCa")).
Proof.
  repeat apply conj.
  - intros H. apply elem_of_channel_states in H as (s & _ & ->). by exists s.
  - intros H. apply elem_of_channel_params in H as [H | (s & _ & ->)].
    + destruct c; simpl in H; set_solver.
    + right. right. by exists s.
  - intros Hne H H'.
    apply elem_of_channel_keys in H as [H | (s & Hs & ->)];
      apply elem_of_channel_keys in H' as [H' | (s' & Hs' & Hk)].
    + split.
      * intros Hst. apply elem_of_channel_states in Hst as (s & _ & Hk).
        exact (prefixed_not_shared c self s k H (eq_sym Hk)).
      * destruct c; simpl in H; set_solver.
    + split.
      * intros Hst. apply elem_of_channel_states in Hst as (s & _ & Hk').
        exact (prefixed_not_shared c self s k H (eq_sym Hk')).
      * destruct c; simpl in H; set_solver.
    + exfalso. exact (prefixed_not_shared c' self s _ H' eq_refl).
    + exfalso. apply Hne. by apply (prefixed_inj_name c c' self self' s s').
Qed.

(** Two Kdr instances: the gate key of one is prefixed; the only key they
    share is ["vK"]. *)
Lemma keys_are_prefixed_except_shared_reversal_witness :
  let a := {| _name := "KdrA" |} in
  let b := {| _name := "KdrB" |} in
  (∃ field, "KdrA_m" = _name a +:+ "_" +:+ field)
  ∧ (("vK" ∉ dom (Kdr.channel_states a)) ∧ ("vK" = "vK" ∨ "vK" = "vCa")).
Proof.
  intros a b. split.
  - destruct (keys_are_prefixed_except_shared_reversal
                Kdr_model Kdr_model a b "KdrA_m") as (H & _).
    apply H. apply elem_of_dom. by eexists.
  - destruct (keys_are_prefixed_except_shared_reversal
                Kdr_model Kdr_model a b "vK") as (_ & _ & H).
    apply H.
    + done.
    + unfold channel_keys. apply elem_of_union. left.
      apply elem_of_dom. by eexists.
    + unfold channel_keys. apply elem_of_union. left.
      apply elem_of_dom. by eexists.
Defined.

(** * Further properties of the channel contract *)

(** ** Which keys the operations need *)

Lemma is_Ok_bind {A B : Type} (m : result A) (f : A → result B) :
  is_Ok (m ≫= f) ↔ ∃ a, m = Ok a ∧ is_Ok (f a).
Proof.
  destruct m as [a | e]; simpl; split.
  - intros H. by exists a.
  - by intros (a' & [= <-] & H).
  - by intros [b H].
  - by intros (a' & H & _).
Qed.

Lemma is_Ok_Ok {A : Type} (a : A) : is_Ok (Ok a).
Proof. by exists a. Qed.

Lemma getitem_Ok_iff (d : dict) (k : string) (x : fval) :
  getitem d k = Ok x ↔ d !! k = Some x.
Proof.
  unfold getitem. destruct (d !! k); split; intros H; by inversion H.
Qed.

Lemma is_Ok_getitem_bind {B : Type} (d : dict) (k : string)
    (f : fval → result B) :
  is_Ok (getitem d k ≫= f) ↔ k ∈ dom d ∧ ∀ x, d !! k = Some x → is_Ok (f x).
Proof.
  rewrite is_Ok_bind, elem_of_dom. split.
  - intros (x & Hx & Hf). apply getitem_Ok_iff in Hx. split; [by exists x |].
    intros y Hy. by replace y with x by congruence.
  - intros ([x Hx] & Hf). exists x. split; [by apply getitem_Ok_iff | auto].
Qed.

Lemma not_is_Ok_Raise {A : Type} (e : exn) : ¬ is_Ok (@Raise A e).
Proof. by intros [a H]. Qed.

Ltac dom_declared :=
  rewrite ?dom_channel_params, ?dom_channel_states;
  unfold prefixed;
  cbn [shared_params param_fields state_fields map app list_to_set].

(** Case analysis on the presence of a key, as [d[k]] makes it. *)
Ltac key_case d k :=
  let x := fresh "x" in
  let E := fresh "E" in
  let D := fresh "D" in
  destruct (d !! k) as [x |] eqn:E;
  [ pose proof (elem_of_dom_2 _ _ _ E) as D
  | pose proof (not_elem_of_dom_2 _ _ E) as D ];
  unfold getitem; rewrite ?E; cbn [mbind result_bind].

Ltac ok_iff :=
  lazymatch goal with
  | |- is_Ok (Ok _) => apply is_Ok_Ok
  | |- _ → is_Ok (Ok _) => intros _; apply is_Ok_Ok
  | |- is_Ok (Raise _) → _ =>
      let H := fresh in intros H; exfalso; by apply not_is_Ok_Raise in H
  | |- is_Ok (Ok _) → _ => intros _; set_solver
  | |- _ → is_Ok (Raise _) => let H := fresh in intros H; exfalso; set_solver
  end.

(** X1: for Leak, Na, Kdr, CaL and CaN, [update_states] returns exactly when
    the state dictionary holds every declared state key (it never reads the
    parameters), [compute_current] returns exactly when the state dictionary
    holds every declared state key and the parameter dictionary every
    declared parameter key, and [init_state] always returns. *)
Theorem benison_operations_need_declared_keys
    (c : model) (self : Channel) (u p : dict) (dt v : fval) :
  c ≠ Phototransduction_model →
  (is_Ok (update_states_of c self u dt v p)
   ↔ dom (channel_states_of c self) ⊆ dom u)
  ∧ (is_Ok (compute_current_of c self u v p)
     ↔ dom (channel_states_of c self) ⊆ dom u
       ∧ dom (channel_params_of c self) ⊆ dom p)
  ∧ is_Ok (init_state_of c self v p).
Proof.
  intros Hc. dom_declared.
  destruct c; [| | | | | done]; clear Hc;
    cbn [update_states_of compute_current_of init_state_of
         shared_params param_fields state_fields map app list_to_set].
  - unfold Leak.update_states, Leak.compute_current, Leak.init_state.
    cbv zeta.
    key_case p (_name self +:+ "_gl"); key_case p (_name self +:+ "_el");
      repeat apply conj; ok_iff.
  - unfold Na.update_states, Na.compute_current, Na.init_state. cbv zeta.
    destruct (Na.m_gate v), (Na.h_gate v).
    key_case u (_name self +:+ "_m"); key_case u (_name self +:+ "_h");
      key_case p (_name self +:+ "_gNa"); key_case p (_name self +:+ "_vNa");
      repeat apply conj; ok_iff.
  - unfold Kdr.update_states, Kdr.compute_current, Kdr.init_state. cbv zeta.
    destruct (Kdr.m_gate v).
    key_case u (_name self +:+ "_m");
      key_case p (_name self +:+ "_gKdr"); key_case p "vK";
      repeat apply conj; ok_iff.
  - unfold CaL.update_states, CaL.compute_current, CaL.init_state. cbv zeta.
    destruct (CaL.m_gate v).
    key_case u (_name self +:+ "_m");
      key_case p (_name self +:+ "_gCaL"); key_case p "vCa";
      repeat apply conj; ok_iff.
  - unfold CaN.update_states, CaN.compute_current, CaN.init_state. cbv zeta.
    destruct (CaN.m_gate v), (CaN.h_gate v).
    key_case u (_name self +:+ "_m"); key_case u (_name self +:+ "_h");
      key_case p (_name self +:+ "_gCaN"); key_case p "vCa";
      repeat apply conj; ok_iff.
Qed.

(** The sodium channel with its declared states and no parameter at all:
    the update returns, the current does not. *)
Lemma benison_operations_need_declared_keys_witness :
  let na := {| _name := "Na" |} in
  is_Ok (Na.update_states na (Na.channel_states na) (Fin 0.025) (Fin (-65)) ∅)
  ∧ ¬ is_Ok (Na.compute_current na (Na.channel_states na) (Fin (-65)) ∅).
Proof.
  intros na.
  destruct (benison_operations_need_declared_keys Na_model na
              (Na.channel_states na) ∅ (Fin 0.025) (Fin (-65)))
    as (Hup & Hcur & _); [done |].
  split.
  - apply Hup. done.
  - intros H. apply Hcur in H as [_ H].
    rewrite dom_channel_params, dom_empty_L in H.
    cbn [shared_params param_fields map app list_to_set] in H. set_solver.
Defined.

Ltac need_keys_fwd H :=
  repeat
    (let D := fresh "D" in
     let x := fresh "x" in
     let E := fresh "E" in
     apply is_Ok_getitem_bind in H; destruct H as [D H];
     pose proof D as E; apply elem_of_dom in E as [x E];
     specialize (H x E)).

(** X2: the keys the phototransduction channel needs.  [init_state]
    returns only if the parameters hold eta, phi, G_dark and Ca_dark;
    [compute_current] only if the state holds G and the parameters hold n
    and k; [update_states] only if the parameters hold the fourteen entries
    it reads (every declared one but h), and the state the six declared
    entries and the entry of the current, ["iPhoto"].  With any of these
    missing the call does not return. *)
Theorem Phototransduction_operations_need_keys
    (self : Channel) (states p : dict) (dt v : fval) :
  (is_Ok (Phototransduction.init_state self v p)
   → Forall (λ field, prefixed self field ∈ dom p)
       ["eta"; "phi"; "G_dark"; "Ca_dark"])
  ∧ (is_Ok (Phototransduction.compute_current self states v p)
     → prefixed self "G" ∈ dom states
       ∧ Forall (λ field, prefixed self field ∈ dom p) ["n"; "k"])
  ∧ (is_Ok (Phototransduction.update_states self states dt v p)
     → Forall (λ field, prefixed self field ∈ dom p)
         ["gamma"; "sigma"; "phi"; "eta"; "q"; "beta"; "S_max"; "K_GC";
          "m"; "k"; "n"; "I_dark"; "Ca_dark"; "G_dark"]
       ∧ Forall (λ field, prefixed self field ∈ dom states)
           ["Stim"; "P"; "R"; "G"; "S"; "C"]
       ∧ "iPhoto" ∈ dom states).
Proof.
  unfold prefixed. repeat apply conj.
  - intros H. unfold Phototransduction.init_state in H. cbv zeta in H.
    need_keys_fwd H. repeat constructor; assumption.
  - intros H. unfold Phototransduction.compute_current in H. cbv zeta in H.
    need_keys_fwd H. split; [assumption |]. repeat constructor; assumption.
  - intros H. unfold Phototransduction.update_states in H.
    unfold Phototransduction.current_name in H. cbv zeta in H.
    need_keys_fwd H. repeat split; repeat constructor; assumption.
Qed.

(** A call that returns, on the declared states with the entry of the
    current and the default parameters; and a state without the entry of
    the current, on which the call cannot return. *)
Lemma Phototransduction_operations_need_keys_witness :
  let self := {| _name := "Phototransduction" |} in
  let p := Phototransduction.channel_params self in
  "iPhoto" ∈ dom (<["iPhoto" := Fin 0]> (Phototransduction.channel_states self))
  ∧ ¬ is_Ok (Phototransduction.update_states self
               (Phototransduction.channel_states self)
               (Fin 0.025) (Fin (-40)) p).
Proof.
  intros self p. split.
  - destruct (Phototransduction_operations_need_keys self
                (<["iPhoto" := Fin 0]> (Phototransduction.channel_states self))
                p (Fin 0.025) (Fin (-40))) as (_ & _ & H).
    apply H. eexists. reflexivity.
  - intros Hok.
    destruct (Phototransduction_operations_need_keys self
                (Phototransduction.channel_states self)
                p (Fin 0.025) (Fin (-40))) as (_ & _ & H).
    apply H in Hok as (_ & _ & Hi). apply elem_of_dom in Hi as [x Hx].
    revert Hx. unfold Phototransduction.channel_states, mkdict.
    cbn [fold_left fst snd]. photo_lookup. done.
Defined.

(** ** What the operations read and what they return *)

Ltac declared_key :=
  dom_declared; set_solver.

(** X3: Leak, Na, Kdr, CaL and CaN read nothing but their declared keys.
    [update_states] depends on the state dictionary through the declared
    state keys only and not at all on the parameters; [compute_current]
    depends on the two dictionaries through the declared keys only;
    [init_state] does not depend on the parameters. *)
Theorem benison_operations_read_declared_keys_only
    (c : model) (self : Channel) (u u' p p' q : dict) (dt v : fval) :
  c ≠ Phototransduction_model →
  (∀ k, k ∈ dom (channel_states_of c self) → u !! k = u' !! k) →
  (∀ k, k ∈ dom (channel_params_of c self) → p !! k = p' !! k) →
  update_states_of c self u dt v p = update_states_of c self u' dt v q
  ∧ compute_current_of c self u v p = compute_current_of c self u' v p'
  ∧ init_state_of c self v p = init_state_of c self v q.
Proof.
  intros Hc Hu Hp.
  destruct c; [| | | | | done]; clear Hc;
    cbn [update_states_of compute_current_of init_state_of].
  - unfold Leak.update_states, Leak.compute_current, Leak.init_state, getitem.
    cbv zeta.
    rewrite (Hp (_name self +:+ "_gl")) by declared_key.
    rewrite (Hp (_name self +:+ "_el")) by declared_key. done.
  - unfold Na.update_states, Na.compute_current, Na.init_state, getitem.
    cbv zeta.
    rewrite (Hu (_name self +:+ "_m")) by declared_key.
    rewrite (Hu (_name self +:+ "_h")) by declared_key.
    rewrite (Hp (_name self +:+ "_gNa")) by declared_key.
    rewrite (Hp (_name self +:+ "_vNa")) by declared_key. done.
  - unfold Kdr.update_states, Kdr.compute_current, Kdr.init_state, getitem.
    cbv zeta.
    rewrite (Hu (_name self +:+ "_m")) by declared_key.
    rewrite (Hp (_name self +:+ "_gKdr")) by declared_key.
    rewrite (Hp "vK") by declared_key. done.
  - unfold CaL.update_states, CaL.compute_current, CaL.init_state, getitem.
    cbv zeta.
    rewrite (Hu (_name self +:+ "_m")) by declared_key.
    rewrite (Hp (_name self +:+ "_gCaL")) by declared_key.
    rewrite (Hp "vCa") by declared_key. done.
  - unfold CaN.update_states, CaN.compute_current, CaN.init_state, getitem.
    cbv zeta.
    rewrite (Hu (_name self +:+ "_m")) by declared_key.
    rewrite (Hu (_name self +:+ "_h")) by declared_key.
    rewrite (Hp (_name self +:+ "_gCaN")) by declared_key.
    rewrite (Hp "vCa") by declared_key. done.
Qed.

(** A potassium channel whose dictionaries also hold the entries of a
    sodium channel: they make no difference. *)
Lemma benison_operations_read_declared_keys_only_witness :
  let kdr := {| _name := "Kdr" |} in
  let u := Kdr.channel_states kdr in
  let p := Kdr.channel_params kdr in
  Kdr.update_states kdr u (Fin 0.025) (Fin (-65)) p
  = Kdr.update_states kdr (<["Na_m" := Fin 0.2]> u) (Fin 0.025) (Fin (-65)) ∅
  ∧ Kdr.compute_current kdr u (Fin (-65)) p
    = Kdr.compute_current kdr (<["Na_m" := Fin 0.2]> u) (Fin (-65))
        (<["Na_vNa" := Fin 75]> p)
  ∧ Kdr.init_state kdr (Fin (-65)) p = Kdr.init_state kdr (Fin (-65)) ∅.
Proof.
  intros kdr u p.
  apply (benison_operations_read_declared_keys_only Kdr_model kdr).
  - done.
  - intros k Hk. rewrite lookup_insert_ne; [done |].
    intros <-. revert Hk. rewrite dom_channel_states.
    cbn [state_fields map list_to_set]. unfold prefixed. simpl. set_solver.
  - intros k Hk. rewrite lookup_insert_ne; [done |].
    intros <-. revert Hk. rewrite dom_channel_params.
    cbn [shared_params param_fields map app list_to_set]. unfold prefixed.
    simpl. set_solver.
Defined.

Lemma bind_Ok_inv {A B : Type} (m : result A) (f : A → result B) (b : B) :
  m ≫= f = Ok b → ∃ a, m = Ok a ∧ f a = Ok b.
Proof. destruct m as [a | e]; simpl; [eauto | done]. Qed.

Ltac bind_inv H :=
  repeat
    (let x := fresh "x" in
     let E := fresh "E" in
     apply bind_Ok_inv in H; destruct H as (x & E & H);
     apply getitem_Ok_iff in E).

Ltac dom_display :=
  unfold mkdict; cbn [fold_left fst snd];
  rewrite ?dom_insert_L, ?dom_empty_L.

(** X4: whenever [update_states] or [init_state] of any of the six models
    returns, the keys of the returned dictionary are exactly the declared
    keys of [channel_states]: entries of the input state that the channel
    does not own are not carried over, and none is added. *)
Theorem returned_state_has_declared_keys
    (c : model) (self : Channel) (u p new : dict) (dt v : fval) :
  (update_states_of c self u dt v p = Ok new →
   dom new = dom (channel_states_of c self))
  ∧ (init_state_of c self v p = Ok new →
     dom new = dom (channel_states_of c self)).
Proof.
  dom_declared.
  destruct c; cbn [update_states_of init_state_of state_fields map
                   list_to_set];
    unfold Leak.update_states, Leak.init_state,
      Na.update_states, Na.init_state, Kdr.update_states, Kdr.init_state,
      CaL.update_states, CaL.init_state, CaN.update_states, CaN.init_state,
      Phototransduction.update_states, Phototransduction.init_state;
    cbv zeta; split; intros H;
    try destruct (Na.m_gate v); try destruct (Na.h_gate v);
    try destruct (Kdr.m_gate v); try destruct (CaL.m_gate v);
    try destruct (CaN.m_gate v); try destruct (CaN.h_gate v);
    bind_inv H; injection H as <-; dom_display; set_solver.
Qed.

(** The sodium channel fed a state that also holds a foreign entry. *)
Lemma returned_state_has_declared_keys_witness :
  let na := {| _name := "Na" |} in
  ∃ new : dict,
    Na.update_states na (<["Kdr_m" := Fin 0.1]> (Na.channel_states na))
      (Fin 0.025) (Fin (-65)) ∅ = Ok new
    ∧ dom new = dom (Na.channel_states na).
Proof.
  intros na. eexists. split; [reflexivity |].
  destruct (returned_state_has_declared_keys Na_model na
              (<["Kdr_m" := Fin 0.1]> (Na.channel_states na)) ∅
              (mkdict
                 [ ("Na_m"%string,
                    uncurry (solve_gate_exponential (Fin 0.2) (Fin 0.025))
                      (Na.m_gate (Fin (-65))));
                   ("Na_h"%string,
                    uncurry (solve_gate_exponential (Fin 0.2) (Fin 0.025))
                      (Na.h_gate (Fin (-65)))) ])
              (Fin 0.025) (Fin (-65))) as [H _].
  apply H. reflexivity.
Defined.

(** ** Iterating the update *)

Ltac rewrite_lookups :=
  repeat match goal with
         | E : ?d !! ?k = Some _ |- context [?d !! ?k] => rewrite E
         end.

(** X5: the dictionary returned by [update_states] of Leak, Na, Kdr, CaL or
    CaN can be passed to [update_states] again, which returns; the one
    returned by [Phototransduction.update_states] cannot: it has no
    ["iPhoto"] entry, and the next call raises [KeyError "iPhoto"] unless
    the caller puts the entry back. *)
Theorem update_states_iterated
    (c : model) (self : Channel) (u p new : dict) (dt v dt' v' : fval) :
  update_states_of c self u dt v p = Ok new →
  (c ≠ Phototransduction_model →
   is_Ok (update_states_of c self new dt' v' p))
  ∧ (c = Phototransduction_model →
     update_states_of c self new dt' v' p = Raise (KeyError "iPhoto")).
Proof.
  intros H. split; intros Hc; destruct c; try done; clear Hc;
    cbn [update_states_of] in *.
  - apply is_Ok_Ok.
  - unfold Na.update_states in *. cbv zeta in *. bind_inv H.
    injection H as <-. unfold getitem, mkdict. cbn [fold_left fst snd].
    dict_lookup. apply is_Ok_Ok.
  - unfold Kdr.update_states in *. cbv zeta in *. bind_inv H.
    injection H as <-. unfold getitem, mkdict. cbn [fold_left fst snd].
    dict_lookup. apply is_Ok_Ok.
  - unfold CaL.update_states in *. cbv zeta in *. bind_inv H.
    injection H as <-. unfold getitem, mkdict. cbn [fold_left fst snd].
    dict_lookup. apply is_Ok_Ok.
  - unfold CaN.update_states in *. cbv zeta in *. bind_inv H.
    injection H as <-. unfold getitem, mkdict. cbn [fold_left fst snd].
    dict_lookup. apply is_Ok_Ok.
  - unfold Phototransduction.update_states in *.
    unfold Phototransduction.current_name in *. cbv zeta in *. bind_inv H.
    injection H as <-. unfold getitem, mkdict. cbn [fold_left fst snd].
    rewrite_lookups. cbn [mbind result_bind]. photo_lookup. done.
Qed.

(** The declared states of the cascade, with the entry of the current. *)
Lemma update_states_iterated_witness :
  let self := {| _name := "Phototransduction" |} in
  let p := Phototransduction.channel_params self in
  ∃ new : dict,
    Phototransduction.update_states self
      (<["iPhoto" := Fin 0]> (Phototransduction.channel_states self))
      (Fin 0.025) (Fin (-40)) p = Ok new
    ∧ Phototransduction.update_states self new (Fin 0.025) (Fin (-40)) p
      = Raise (KeyError "iPhoto").
Proof.
  intros self p. eexists. split; [reflexivity |].
  eapply (update_states_iterated Phototransduction_model self
            (<["iPhoto" := Fin 0]> (Phototransduction.channel_states self))
            p _ (Fin 0.025) (Fin (-40)) (Fin 0.025) (Fin (-40))).
  - reflexivity.
  - reflexivity.
Defined.

(** ** The rate functions at regular voltages *)

Lemma ratio_rate_neg (num y : R) :
  (0 < num * y)%R → (num / (1 - exp y) < 0)%R.
Proof.
  intros H. pose proof (ratio_rate_pos (- num) y ltac:(nra)) as Hpos.
  unfold Rdiv in *. nra.
Qed.

Lemma inactivation_rate_bound (c x : R) :
  (0 < c)%R → (0 < c / (1 + exp x) < c)%R.
Proof.
  intros Hc. pose proof (exp_pos x) as He.
  pose proof (Rinv_0_lt_compat (1 + exp x) ltac:(lra)) as Hi.
  pose proof (Rinv_r (1 + exp x) ltac:(lra)) as Hr.
  unfold Rdiv. set (i := (/ (1 + exp x))%R) in *.
  assert (i < 1)%R by nra. split; nra.
Qed.

(** X6: away from the single voltage where its denominator vanishes, each
    activation rate function ([Na.m_gate] off -29 mV, [CaL.m_gate] off 3 mV,
    [CaN.m_gate] off 20 mV) returns two finite, strictly positive rates; the
    inactivation rate functions [Na.h_gate] and [CaN.h_gate] do so at every
    voltage, with beta below its ceiling (2.8 and 0.1). *)
Theorem rates_are_finite_and_positive (V : R) :
  (V ≠ (-29)%R →
   ∃ a b : R, Na.m_gate (Fin V) = (Fin a, Fin b) ∧ (0 < a)%R ∧ (0 < b)%R)
  ∧ (∃ a b : R, Na.h_gate (Fin V) = (Fin a, Fin b)
                ∧ (0 < a)%R ∧ (0 < b < 2.8)%R)
  ∧ (V ≠ 3%R →
     ∃ a b : R, CaL.m_gate (Fin V) = (Fin a, Fin b) ∧ (0 < a)%R ∧ (0 < b)%R)
  ∧ (V ≠ 20%R →
     ∃ a b : R, CaN.m_gate (Fin V) = (Fin a, Fin b) ∧ (0 < a)%R ∧ (0 < b)%R)
  ∧ (∃ a b : R, CaN.h_gate (Fin V) = (Fin a, Fin b)
                ∧ (0 < a)%R ∧ (0 < b < 0.1)%R).
Proof.
  repeat apply conj.
  - intros HV. do 2 eexists. split; [by apply Na_m_gate_regular |].
    by apply Na_m_rates_pos.
  - do 2 eexists. split; [apply Na_h_gate_regular |].
    split; [apply Na_h_rates_pos | apply inactivation_rate_bound; lra].
  - intros HV. do 2 eexists. split; [by apply CaL_m_gate_regular |].
    by apply CaL_m_rates_pos.
  - intros HV. do 2 eexists. split; [by apply CaN_m_gate_regular |].
    by apply CaN_m_rates_pos.
  - do 2 eexists. split; [apply CaN_h_gate_regular |].
    split; [apply CaN_h_rates_pos | apply inactivation_rate_bound; lra].
Qed.

(** The three activation rates at the resting voltage -65 mV. *)
Lemma rates_are_finite_and_positive_witness :
  (∃ a b : R, Na.m_gate (Fin (-65)) = (Fin a, Fin b)
              ∧ (0 < a)%R ∧ (0 < b)%R)
  ∧ (∃ a b : R, CaL.m_gate (Fin (-65)) = (Fin a, Fin b)
                ∧ (0 < a)%R ∧ (0 < b)%R)
  ∧ (∃ a b : R, CaN.m_gate (Fin (-65)) = (Fin a, Fin b)
                ∧ (0 < a)%R ∧ (0 < b)%R).
Proof.
  destruct (rates_are_finite_and_positive (-65))
    as (HNa & _ & HCaL & HCaN & _).
  repeat apply conj; [apply HNa | apply HCaL | apply HCaN]; lra.
Defined.

(** X7: [Kdr.m_gate] is finite off 0 mV with a positive beta, but the sign
    of its alpha changes: positive below -30 mV and above 0 mV, zero at
    -30 mV, and negative between -30 mV and 0 mV, where the numerator
    [e + 30] and the denominator [1 - exp(-0.3 e)] have opposite signs. *)
Theorem Kdr_activation_rate_sign (V : R) :
  V ≠ 0%R →
  ∃ a b : R,
    Kdr.m_gate (Fin V) = (Fin a, Fin b)
    ∧ (0 < b)%R
    ∧ ((V < -30 ∨ 0 < V)%R → (0 < a)%R)
    ∧ (V = (-30)%R → a = 0%R)
    ∧ ((-30 < V < 0)%R → (a < 0)%R).
Proof.
  intros HV. do 2 eexists. split; [by apply Kdr_m_gate_regular |].
  repeat apply conj.
  - pose proof (exp_pos ((V + 15) / 15)). lra.
  - intros H. by apply Kdr_m_rates_pos.
  - intros ->. unfold Rdiv. lra.
  - intros H. apply ratio_rate_neg. nra.
Qed.

(** The rate at -15 mV, between the two zeros. *)
Lemma Kdr_activation_rate_sign_witness :
  ∃ a b : R, Kdr.m_gate (Fin (-15)) = (Fin a, Fin b) ∧ (a < 0)%R.
Proof.
  destruct (Kdr_activation_rate_sign (-15)) as (a & b & Hg & _ & _ & _ & Hneg);
    [lra |].
  exists a, b. split; [exact Hg | apply Hneg; lra].
Defined.

(** ** The initial state *)

Lemma steady_state_open_interval (a b : R) :
  (0 < a)%R → (0 < b)%R → (0 < a / (a + b) < 1)%R.
Proof.
  intros Ha Hb. unfold Rdiv.
  pose proof (Rinv_0_lt_compat (a + b) ltac:(lra)) as Hinv.
  pose proof (Rinv_r (a + b) ltac:(lra)) as H1.
  set (i := (/ (a + b))%R) in *. split; nra.
Qed.

(** X8: away from the singular voltage of the activation rate, [init_state]
    of Na, CaL and CaN returns gates strictly between 0 and 1. *)
Theorem init_state_gates_in_open_unit_interval
    (self : Channel) (V : R) (p : dict) :
  let prefix := _name self in
  (V ≠ (-29)%R →
   ∃ m h : R,
     Na.init_state self (Fin V) p
     = Ok (mkdict [ (prefix +:+ "_m", Fin m); (prefix +:+ "_h", Fin h) ])
     ∧ (0 < m < 1)%R ∧ (0 < h < 1)%R)
  ∧ (V ≠ 3%R →
     ∃ m : R,
       CaL.init_state self (Fin V) p = Ok (mkdict [ (prefix +:+ "_m", Fin m) ])
       ∧ (0 < m < 1)%R)
  ∧ (V ≠ 20%R →
     ∃ m h : R,
       CaN.init_state self (Fin V) p
       = Ok (mkdict [ (prefix +:+ "_m", Fin m); (prefix +:+ "_h", Fin h) ])
       ∧ (0 < m < 1)%R ∧ (0 < h < 1)%R).
Proof.
  intros prefix. repeat apply conj.
  - intros HV. destruct (Na_m_rates_pos V HV) as [Ha Hb].
    destruct (Na_h_rates_pos V) as [Ha' Hb'].
    do 2 eexists. split.
    + unfold Na.init_state. rewrite Na_m_gate_regular by done.
      rewrite Na_h_gate_regular. fold prefix. float_simpl. reflexivity.
    + split; by apply steady_state_open_interval.
  - intros HV. destruct (CaL_m_rates_pos V HV) as [Ha Hb].
    eexists. split.
    + unfold CaL.init_state. rewrite CaL_m_gate_regular by done.
      fold prefix. float_simpl. reflexivity.
    + by apply steady_state_open_interval.
  - intros HV. destruct (CaN_m_rates_pos V HV) as [Ha Hb].
    destruct (CaN_h_rates_pos V) as [Ha' Hb'].
    do 2 eexists. split.
    + unfold CaN.init_state. rewrite CaN_m_gate_regular by done.
      rewrite CaN_h_gate_regular. fold prefix. float_simpl. reflexivity.
    + split; by apply steady_state_open_interval.
Qed.

(** The three channels at the resting voltage -65 mV. *)
Lemma init_state_gates_in_open_unit_interval_witness :
  (∃ m h : R,
     Na.init_state {| _name := "Na" |} (Fin (-65)) ∅
     = Ok (mkdict [ ("Na_m"%string, Fin m); ("Na_h"%string, Fin h) ])
     ∧ (0 < m < 1)%R ∧ (0 < h < 1)%R)
  ∧ (∃ m : R,
       CaL.init_state {| _name := "CaL" |} (Fin (-65)) ∅
       = Ok (mkdict [ ("CaL_m"%string, Fin m) ])
       ∧ (0 < m < 1)%R)
  ∧ (∃ m h : R,
       CaN.init_state {| _name := "CaN" |} (Fin (-65)) ∅
       = Ok (mkdict [ ("CaN_m"%string, Fin m); ("CaN_h"%string, Fin h) ])
       ∧ (0 < m < 1)%R ∧ (0 < h < 1)%R).
Proof.
  repeat apply conj.
  - destruct (init_state_gates_in_open_unit_interval
                {| _name := "Na" |} (-65) ∅) as (H & _).
    apply H. lra.
  - destruct (init_state_gates_in_open_unit_interval
                {| _name := "CaL" |} (-65) ∅) as (_ & H & _).
    apply H. lra.
  - destruct (init_state_gates_in_open_unit_interval
                {| _name := "CaN" |} (-65) ∅) as (_ & _ & H).
    apply H. lra.
Defined.

(** X9: between -30 mV and 0 mV, [Kdr.init_state] never returns a gate in
    [0, 1]: the gate is negative, or larger than 1, or not finite (when
    alpha + beta vanishes). *)
Theorem Kdr_init_state_outside_unit_interval
    (self : Channel) (V : R) (p : dict) :
  (-30 < V < 0)%R →
  ∃ g : fval,
    Kdr.init_state self (Fin V) p = Ok (mkdict [ (_name self +:+ "_m", g) ])
    ∧ (g = NonFinite ∨ ∃ x : R, g = Fin x ∧ (x < 0 ∨ 1 < x)%R).
Proof.
  intros HV. unfold Kdr.init_state. rewrite Kdr_m_gate_regular by lra.
  cbv zeta. eexists. split; [reflexivity |].
  assert (0.0065 * (V + 30) / (1 - exp (-0.3 * V)) < 0)%R as Ha
    by (apply ratio_rate_neg; nra).
  assert (0 < 0.083 * exp ((V + 15) / 15))%R as Hb
    by (pose proof (exp_pos ((V + 15) / 15)); lra).
  set (a := (0.0065 * (V + 30) / (1 - exp (-0.3 * V)))%R) in *.
  set (b := (0.083 * exp ((V + 15) / 15))%R) in *.
  cbn [fadd]. destruct (Req_dec_T (a + b) 0) as [Hz | Hnz].
  - left. by apply fdiv_zero.
  - right. exists (a / (a + b))%R. split; [by apply fdiv_Fin |].
    unfold Rdiv. destruct (Rtotal_order (a + b) 0) as [Hneg | [? | Hpos]].
    + right. pose proof (Rinv_lt_0_compat _ Hneg) as Hi.
      pose proof (Rinv_r (a + b) Hnz) as Hr.
      set (i := (/ (a + b))%R) in *. nra.
    + done.
    + left. pose proof (Rinv_0_lt_compat _ Hpos) as Hi.
      set (i := (/ (a + b))%R) in *. nra.
Qed.

(** The potassium channel initialised at -15 mV. *)
Lemma Kdr_init_state_outside_unit_interval_witness :
  ∃ g : fval,
    Kdr.init_state {| _name := "Kdr" |} (Fin (-15)) ∅
    = Ok (mkdict [ ("Kdr_m"%string, g) ])
    ∧ (g = NonFinite ∨ ∃ x : R, g = Fin x ∧ (x < 0 ∨ 1 < x)%R).
Proof.
  apply (Kdr_init_state_outside_unit_interval {| _name := "Kdr" |} (-15) ∅).
  lra.
Defined.

(** X10: at the singular voltage of its activation rate the non-finite
    alpha reaches the state: [init_state] returns a non-finite activation
    gate, and [update_states] replaces the activation gate by a non-finite
    value whatever its old value and the time step. *)
Theorem singular_voltage_gives_non_finite_gate
    (self : Channel) (p : dict) (dt : fval) :
  let prefix := _name self in
  (∃ h : fval,
     Na.init_state self (Fin (-29)) p
     = Ok (mkdict [ (prefix +:+ "_m", NonFinite); (prefix +:+ "_h", h) ])
     ∧ ∀ u ms hs,
         u !! (prefix +:+ "_m") = Some ms → u !! (prefix +:+ "_h") = Some hs →
         ∃ h' : fval,
           Na.update_states self u dt (Fin (-29)) p
           = Ok (mkdict [ (prefix +:+ "_m", NonFinite);
                          (prefix +:+ "_h", h') ]))
  ∧ (Kdr.init_state self (Fin 0) p
     = Ok (mkdict [ (prefix +:+ "_m", NonFinite) ])
     ∧ ∀ u ms,
         u !! (prefix +:+ "_m") = Some ms →
         Kdr.update_states self u dt (Fin 0) p
         = Ok (mkdict [ (prefix +:+ "_m", NonFinite) ]))
  ∧ (CaL.init_state self (Fin 3) p
     = Ok (mkdict [ (prefix +:+ "_m", NonFinite) ])
     ∧ ∀ u ms,
         u !! (prefix +:+ "_m") = Some ms →
         CaL.update_states self u dt (Fin 3) p
         = Ok (mkdict [ (prefix +:+ "_m", NonFinite) ]))
  ∧ (∃ h : fval,
       CaN.init_state self (Fin 20) p
       = Ok (mkdict [ (prefix +:+ "_m", NonFinite); (prefix +:+ "_h", h) ])
       ∧ ∀ u ms hs,
           u !! (prefix +:+ "_m") = Some ms →
           u !! (prefix +:+ "_h") = Some hs →
           ∃ h' : fval,
             CaN.update_states self u dt (Fin 20) p
             = Ok (mkdict [ (prefix +:+ "_m", NonFinite);
                            (prefix +:+ "_h", h') ])).
Proof.
  intros prefix.
  assert (∀ x b : fval, solve_gate_exponential x dt NonFinite b = NonFinite)
    as Hsolve by (intros [] []; reflexivity).
  assert ((Na.m_gate (Fin (-29))).1 = NonFinite) as HNa.
  { unfold Na.m_gate. cbn [fst fadd fsub fmul fneg jnp_exp].
    apply fdiv_zero, one_minus_exp_zero. lra. }
  assert ((Kdr.m_gate (Fin 0)).1 = NonFinite) as HKdr.
  { unfold Kdr.m_gate. cbn [fst fadd fsub fmul fneg jnp_exp].
    apply fdiv_zero, one_minus_exp_zero. lra. }
  assert ((CaL.m_gate (Fin 3)).1 = NonFinite) as HCaL.
  { unfold CaL.m_gate. cbn [fst fadd fsub fmul fneg jnp_exp].
    rewrite (fdiv_Fin _ 12.5) by lra. cbn [fsub jnp_exp].
    apply fdiv_zero, one_minus_exp_zero. lra. }
  assert ((CaN.m_gate (Fin 20)).1 = NonFinite) as HCaN.
  { unfold CaN.m_gate. cbn [fst fadd fsub fmul fneg jnp_exp].
    apply fdiv_zero, one_minus_exp_zero. lra. }
  repeat apply conj.
  - unfold Na.init_state, Na.update_states, getitem. fold prefix.
    destruct (Na.m_gate (Fin (-29))) as [a b]. simpl in HNa. subst a.
    destruct (Na.h_gate (Fin (-29))) as [a' b'].
    eexists. split; [reflexivity |].
    intros u ms hs -> ->. cbn [mbind result_bind uncurry].
    rewrite Hsolve. by eexists.
  - unfold Kdr.init_state. fold prefix.
    destruct (Kdr.m_gate (Fin 0)) as [a b]. simpl in HKdr. by subst a.
  - intros u ms Hm. unfold Kdr.update_states, getitem. fold prefix.
    rewrite Hm. destruct (Kdr.m_gate (Fin 0)) as [a b]. simpl in HKdr.
    subst a. cbn [mbind result_bind uncurry]. by rewrite Hsolve.
  - unfold CaL.init_state. fold prefix.
    destruct (CaL.m_gate (Fin 3)) as [a b]. simpl in HCaL. by subst a.
  - intros u ms Hm. unfold CaL.update_states, getitem. fold prefix.
    rewrite Hm. destruct (CaL.m_gate (Fin 3)) as [a b]. simpl in HCaL.
    subst a. cbn [mbind result_bind uncurry]. by rewrite Hsolve.
  - unfold CaN.init_state, CaN.update_states, getitem. fold prefix.
    destruct (CaN.m_gate (Fin 20)) as [a b]. simpl in HCaN. subst a.
    destruct (CaN.h_gate (Fin 20)) as [a' b'].
    eexists. split; [reflexivity |].
    intros u ms hs -> ->. cbn [mbind result_bind uncurry].
    rewrite Hsolve. by eexists.
Qed.

(** Sodium and potassium channels at their singular voltages, from the
    declared states. *)
Lemma singular_voltage_gives_non_finite_gate_witness :
  (∃ h' : fval,
     Na.update_states {| _name := "Na" |} (Na.channel_states {| _name := "Na" |})
       (Fin 0.025) (Fin (-29)) ∅
     = Ok (mkdict [ ("Na_m"%string, NonFinite); ("Na_h"%string, h') ]))
  ∧ Kdr.update_states {| _name := "Kdr" |}
      (Kdr.channel_states {| _name := "Kdr" |}) (Fin 0.025) (Fin 0) ∅
    = Ok (mkdict [ ("Kdr_m"%string, NonFinite) ]).
Proof.
  split.
  - destruct (singular_voltage_gives_non_finite_gate
                {| _name := "Na" |} ∅ (Fin 0.025)) as ((h & _ & H) & _).
    apply (H _ (Fin 0.2) (Fin 0.2)); reflexivity.
  - destruct (singular_voltage_gives_non_finite_gate
                {| _name := "Kdr" |} ∅ (Fin 0.025)) as (_ & (_ & H) & _).
    apply (H _ (Fin 0.1)). reflexivity.
Defined.

(** ** The currents *)

Lemma ohmic_current_sign (cond V E : R) :
  (0 < cond)%R →
  (0 < cond * (V - E) ↔ E < V)%R ∧ (cond * (V - E) = 0 ↔ V = E)%R.
Proof. intros Hc. repeat split; intros H; nra. Qed.

(** X11: with a positive conductance and open gates (gate values above 0),
    the current of Leak, Na, Kdr, CaL and CaN has the sign of the driving
    force [V - E_rev]: it is outward (positive) above the reversal
    potential, inward below, and zero only at the reversal potential. *)
Theorem current_has_sign_of_driving_force
    (self : Channel) (u p : dict) (V g E ms hs : R) :
  let prefix := _name self in
  (0 < g)%R → (0 < ms)%R → (0 < hs)%R →
  (p !! (prefix +:+ "_gl") = Some (Fin g) →
   p !! (prefix +:+ "_el") = Some (Fin E) →
   ∃ I : R, Leak.compute_current self u (Fin V) p = Ok (Fin I)
            ∧ (0 < I ↔ E < V)%R ∧ (I = 0%R ↔ V = E))
  ∧ (u !! (prefix +:+ "_m") = Some (Fin ms) →
     u !! (prefix +:+ "_h") = Some (Fin hs) →
     p !! (prefix +:+ "_gNa") = Some (Fin g) →
     p !! (prefix +:+ "_vNa") = Some (Fin E) →
     ∃ I : R, Na.compute_current self u (Fin V) p = Ok (Fin I)
              ∧ (0 < I ↔ E < V)%R ∧ (I = 0%R ↔ V = E))
  ∧ (u !! (prefix +:+ "_m") = Some (Fin ms) →
     p !! (prefix +:+ "_gKdr") = Some (Fin g) →
     p !! "vK" = Some (Fin E) →
     ∃ I : R, Kdr.compute_current self u (Fin V) p = Ok (Fin I)
              ∧ (0 < I ↔ E < V)%R ∧ (I = 0%R ↔ V = E))
  ∧ (u !! (prefix +:+ "_m") = Some (Fin ms) →
     p !! (prefix +:+ "_gCaL") = Some (Fin g) →
     p !! "vCa" = Some (Fin E) →
     ∃ I : R, CaL.compute_current self u (Fin V) p = Ok (Fin I)
              ∧ (0 < I ↔ E < V)%R ∧ (I = 0%R ↔ V = E))
  ∧ (u !! (prefix +:+ "_m") = Some (Fin ms) →
     u !! (prefix +:+ "_h") = Some (Fin hs) →
     p !! (prefix +:+ "_gCaN") = Some (Fin g) →
     p !! "vCa" = Some (Fin E) →
     ∃ I : R, CaN.compute_current self u (Fin V) p = Ok (Fin I)
              ∧ (0 < I ↔ E < V)%R ∧ (I = 0%R ↔ V = E)).
Proof.
  intros prefix Hg Hms Hhs.
  assert (0 < ms ^ 2)%R as Hm2 by (simpl; nra).
  assert (0 < ms ^ 3)%R as Hm3 by (simpl; nra).
  repeat apply conj.
  - intros Hgl Hel. eexists. split.
    + unfold Leak.compute_current, getitem. fold prefix. rewrite Hgl, Hel.
      reflexivity.
    + apply ohmic_current_sign. lra.
  - intros Hm Hh Hgk HE. eexists. split.
    + unfold Na.compute_current, getitem. fold prefix.
      rewrite Hm, Hh, Hgk, HE. reflexivity.
    + apply ohmic_current_sign.
      assert (0 < g * ms ^ 3)%R by nra. assert (0 < g * ms ^ 3 * hs)%R by nra.
      lra.
  - intros Hm Hgk HE. eexists. split.
    + unfold Kdr.compute_current, getitem. fold prefix.
      rewrite Hm, Hgk, HE. reflexivity.
    + apply ohmic_current_sign. assert (0 < g * ms ^ 3)%R by nra. lra.
  - intros Hm Hgk HE. eexists. split.
    + unfold CaL.compute_current, getitem. fold prefix.
      rewrite Hm, Hgk, HE. reflexivity.
    + apply ohmic_current_sign. assert (0 < g * ms ^ 2)%R by nra. lra.
  - intros Hm Hh Hgk HE. eexists. split.
    + unfold CaN.compute_current, getitem. fold prefix.
      rewrite Hm, Hh, Hgk, HE. reflexivity.
    + apply ohmic_current_sign.
      assert (0 < g * ms ^ 2)%R by nra. assert (0 < g * ms ^ 2 * hs)%R by nra.
      lra.
Qed.

(** The sodium channel at rest, below its reversal potential of 75 mV: the
    current is inward. *)
Lemma current_has_sign_of_driving_force_witness :
  ∃ I : R,
    Na.compute_current {| _name := "Na" |}
      (Na.channel_states {| _name := "Na" |}) (Fin (-65))
      (Na.channel_params {| _name := "Na" |}) = Ok (Fin I)
    ∧ ¬ (0 < I)%R.
Proof.
  destruct (current_has_sign_of_driving_force {| _name := "Na" |}
              (Na.channel_states {| _name := "Na" |})
              (Na.channel_params {| _name := "Na" |})
              (-65) 150e-9 75.0 0.2 0.2)
    as (_ & H & _); [lra | lra | lra |].
  destruct H as (I & HI & Hsign & _); [reflexivity .. |].
  exists I. split; [exact HI |]. intros Hpos. apply Hsign in Hpos. lra.
Defined.

(** ** The phototransduction cascade *)

(** X12: the current read at the dark state.  Whatever the voltages,
    [compute_current] applied to the dictionary returned by [init_state] is
    [- k * G_dark ** n], for any parameters with a positive dark cGMP
    concentration; it is inward (negative) when [k] is positive. *)
Theorem dark_current
    (self : Channel) (v v' : fval) (p : dict) (eta phi Ca : fval) (G n k : R) :
  let prefix := _name self in
  p !! (prefix +:+ "_eta") = Some eta →
  p !! (prefix +:+ "_phi") = Some phi →
  p !! (prefix +:+ "_G_dark") = Some (Fin G) →
  p !! (prefix +:+ "_Ca_dark") = Some Ca →
  p !! (prefix +:+ "_n") = Some (Fin n) →
  p !! (prefix +:+ "_k") = Some (Fin k) →
  (0 < G)%R →
  ∃ dark : dict,
    Phototransduction.init_state self v p = Ok dark
    ∧ Phototransduction.compute_current self dark v' p
      = Ok (Fin (- k * Rpower G n))
    ∧ ((0 < k)%R → (- k * Rpower G n < 0)%R).
Proof.
  intros prefix Heta Hphi HG HCa Hn Hk HGpos. eexists. repeat apply conj.
  - unfold Phototransduction.init_state, getitem. fold prefix.
    rewrite Heta, Hphi, HG, HCa. reflexivity.
  - unfold Phototransduction.compute_current, getitem, mkdict. fold prefix.
    cbn [fold_left fst snd]. photo_lookup. rewrite Hn, Hk.
    cbn [mbind result_bind fneg fpow]. rewrite Rpow_pos by done. reflexivity.
  - intros Hkpos. pose proof (Rpower_gt_0 G n). nra.
Qed.

(** The default parameters: the dark current is -80 pA. *)
Lemma dark_current_witness :
  let self := {| _name := "Phototransduction" |} in
  let p := Phototransduction.channel_params self in
  ∃ dark : dict,
    Phototransduction.init_state self (Fin (-40)) p = Ok dark
    ∧ Phototransduction.compute_current self dark (Fin (-40)) p
      = Ok (Fin (-80)).
Proof.
  intros self p.
  destruct (dark_current self (Fin (-40)) (Fin (-40)) p
              (Fin 2000) (Fin 22) (Fin 1) 20 3 0.01)
    as (dark & Hinit & Hcur & _); [reflexivity .. | lra |].
  exists dark. split; [exact Hinit |]. rewrite Hcur. f_equal. apply Fin_eq.
  rewrite (Rpower_nat 20 3) by (simpl; lra). lra.
Defined.

(** X13: the dark state returned by [init_state] is a steady state of
    [update_states] exactly when the declared dark current agrees with the
    other parameters, [I_dark = k * G_dark ** n].  The statement covers all
    finite parameters with phi and I_dark nonzero, positive G_dark, Ca_dark
    and K_GC, a nonzero extrusion rate beta and a nonzero time step; the
    state passed holds the entry of the current, of any value. *)
Theorem dark_state_steady_iff
    (self : Channel) (v i : fval) (p : dict)
    (gamma sigma phi eta beta K m k n I Ca G dt : R) (q0 S0 : fval) :
  let prefix := _name self in
  p !! (prefix +:+ "_gamma") = Some (Fin gamma) →
  p !! (prefix +:+ "_sigma") = Some (Fin sigma) →
  p !! (prefix +:+ "_phi") = Some (Fin phi) →
  p !! (prefix +:+ "_eta") = Some (Fin eta) →
  p !! (prefix +:+ "_q") = Some q0 →
  p !! (prefix +:+ "_beta") = Some (Fin beta) →
  p !! (prefix +:+ "_S_max") = Some S0 →
  p !! (prefix +:+ "_K_GC") = Some (Fin K) →
  p !! (prefix +:+ "_m") = Some (Fin m) →
  p !! (prefix +:+ "_k") = Some (Fin k) →
  p !! (prefix +:+ "_n") = Some (Fin n) →
  p !! (prefix +:+ "_I_dark") = Some (Fin I) →
  p !! (prefix +:+ "_Ca_dark") = Some (Fin Ca) →
  p !! (prefix +:+ "_G_dark") = Some (Fin G) →
  phi ≠ 0%R → I ≠ 0%R → beta ≠ 0%R → dt ≠ 0%R →
  (0 < K)%R → (0 < Ca)%R → (0 < G)%R →
  ∃ dark : dict,
    Phototransduction.init_state self v p = Ok dark
    ∧ (Phototransduction.update_states self (<["iPhoto" := i]> dark)
         (Fin dt) v p = Ok dark
       ↔ I = (k * Rpower G n)%R).
Proof.
  intros prefix Hgamma Hsigma Hphi Heta Hq Hbeta HSmax HK Hm Hk Hn HI HCa HG
    Hphi0 HI0 Hbeta0 Hdt0 HKpos HCapos HGpos.
  eexists. split.
  { unfold Phototransduction.init_state, getitem. fold prefix.
    rewrite Heta, Hphi, HG, HCa. cbn [mbind result_bind]. float_simpl.
    reflexivity. }
  unfold Phototransduction.update_states, Phototransduction.current_name.
  unfold getitem, mkdict. fold prefix. cbn [fold_left fst snd].
  rewrite Hgamma, Hsigma, Hphi, Heta, Hq, Hbeta, HSmax, HK, Hm, Hk, Hn.
  rewrite HI, HCa, HG. photo_lookup. cbn [mbind result_bind].
  float_simpl. cbn [fpow].
  assert (0 < Ca / K)%R as Hratio by (by apply Rdiv_lt_0_compat).
  rewrite !Rpow_pos by done. float_simpl.
  pose proof (Rpower_gt_0 (Ca / K) m) as HX.
  set (X := Rpower (Ca / K) m) in *. set (Y := Rpower G n) in *.
  clearbody X Y. split.
  - intros Heq.
    apply (f_equal (λ r : result dict,
                      match r with
                      | Ok d => d !! (prefix +:+ "_C")
                      | Raise _ => None
                      end)) in Heq.
    revert Heq. photo_lookup. intros [= Heq].
    assert ((beta * Ca / I * (k * Y) - beta * Ca) * (dt / 1000) = 0)%R
      as Hz by lra.
    apply Rmult_integral in Hz as [Hz | Hz]; [| lra].
    assert (beta * Ca * (k * Y) = beta * Ca * I)%R as Hz'.
    { apply (Rmult_eq_compat_r I) in Hz. revert Hz. unfold Rdiv.
      rewrite Rmult_minus_distr_r, Rmult_0_l.
      replace (beta * Ca * / I * (k * Y) * I)%R
        with (beta * Ca * (k * Y) * (I * / I))%R by ring.
      rewrite Rinv_r by done. lra. }
    assert (beta * Ca ≠ 0)%R as Hbc by nra.
    symmetry. by apply (Rmult_eq_reg_l (beta * Ca)).
  - intros ->. f_equal. repeat (apply insert_Fin_eq; [| try reflexivity]).
    + lra.
    + unfold Rdiv. rewrite (Rmult_assoc (beta * Ca)).
      rewrite Rinv_l by done. lra.
    + field. split; lra.
    + field. done.
    + replace 0.0%R with 0%R by lra. field. done.
    + nra.
Qed.

(** The default parameters, whose dark current 20^3 * 0.01 agrees with
    k * G_dark ** n. *)
Lemma dark_state_steady_iff_witness :
  let self := {| _name := "Phototransduction" |} in
  let p := Phototransduction.channel_params self in
  ∃ dark : dict,
    Phototransduction.init_state self (Fin (-40)) p = Ok dark
    ∧ Phototransduction.update_states self (<["iPhoto" := Fin 0]> dark)
        (Fin 0.025) (Fin (-40)) p = Ok dark.
Proof.
  intros self p.
  destruct (dark_state_steady_iff self (Fin (-40)) (Fin 0) p
              10 22 22 2000 9 0.5 4 0.01 3 (20 ^ 3 * 0.01) 1 20 0.025
              (Fin 1.0) (Fin 30909))
    as (dark & Hinit & Hiff); [reflexivity .. | lra | lra | lra | lra
                              | lra | lra | lra |].
  exists dark. split; [exact Hinit |]. apply Hiff.
  rewrite (Rpower_nat 20 3) by (simpl; lra). lra.
Defined.

Ltac same_lookup :=
  repeat match goal with
         | E : ?d !! ?k = Some ?x, E' : ?d !! ?k = Some ?y |- _ =>
             assert (x = y) by congruence; subst x; clear E
         end.

(** X14: the opsin equation is integrated without clamping.  With no
    stimulus, one call multiplies R by [1 - sigma * dt / 1000]: R decays
    without changing sign while [sigma * dt <= 1000], changes sign when
    [sigma * dt > 1000], and grows in magnitude when [sigma * dt > 2000]. *)
Theorem opsin_step_is_unclamped
    (self : Channel) (states p new : dict) (v : fval) (sigma gamma r dt : R) :
  let prefix := _name self in
  Phototransduction.update_states self states (Fin dt) v p = Ok new →
  p !! (prefix +:+ "_gamma") = Some (Fin gamma) →
  p !! (prefix +:+ "_sigma") = Some (Fin sigma) →
  states !! (prefix +:+ "_Stim") = Some (Fin 0) →
  states !! (prefix +:+ "_R") = Some (Fin r) →
  ∃ r' : R,
    new !! (prefix +:+ "_R") = Some (Fin r')
    ∧ r' = (r * (1 - sigma * dt / 1000))%R
    ∧ ((0 <= sigma * dt <= 1000)%R → (0 <= r' * r)%R ∧ (Rabs r' <= Rabs r)%R)
    ∧ ((1000 < sigma * dt)%R → (0 < r)%R → (r' < 0)%R)
    ∧ ((2000 < sigma * dt)%R → r ≠ 0%R → (Rabs r < Rabs r')%R).
Proof.
  intros prefix H Hgamma Hsigma HStim HR.
  unfold Phototransduction.update_states in H. cbv zeta in H.
  fold prefix in H. bind_inv H. same_lookup.
  apply (f_equal (λ res : result dict,
                    match res with
                    | Ok d => d !! (prefix +:+ "_R")
                    | Raise _ => None
                    end)) in H.
  revert H. unfold mkdict. cbn [fold_left fst snd]. photo_lookup.
  float_simpl. intros H.
  exists (r * (1 - sigma * dt / 1000))%R. split; [| split; [done |]].
  { rewrite <- H. f_equal. apply Fin_eq. lra. }
  set (c := (1 - sigma * dt / 1000)%R). repeat apply conj.
  - intros Hs. assert (0 <= c <= 1)%R as Hc by (unfold c; lra). split.
    + nra.
    + rewrite Rabs_mult, (Rabs_right c) by lra.
      pose proof (Rabs_pos r). nra.
  - intros Hs Hr. assert (c < 0)%R by (unfold c; lra). nra.
  - intros Hs Hr. assert (c < -1)%R as Hc by (unfold c; lra).
    rewrite Rabs_mult, (Rabs_left c) by lra.
    pose proof (Rabs_pos_lt r Hr). nra.
Qed.

(** The default parameters (sigma = 22 /s) with an oversized step of
    100 s: the opsin activity R = 1 is sent to a negative value of larger
    magnitude. *)
Lemma opsin_step_is_unclamped_witness :
  let self := {| _name := "Phototransduction" |} in
  let states :=
    <["Phototransduction_R" := Fin 1]>
      (<["Phototransduction_Stim" := Fin 0]>
         (<["iPhoto" := Fin 0]> (Phototransduction.channel_states self))) in
  ∃ (new : dict) (r' : R),
    Phototransduction.update_states self states (Fin 100000) (Fin (-40))
      (Phototransduction.channel_params self) = Ok new
    ∧ new !! "Phototransduction_R" = Some (Fin r')
    ∧ (r' < 0)%R ∧ (Rabs 1 < Rabs r')%R.
Proof.
  intros self states.
  eassert (Phototransduction.update_states self states (Fin 100000)
             (Fin (-40)) (Phototransduction.channel_params self) = Ok _)
    as Hup by reflexivity.
  destruct (opsin_step_is_unclamped self states _ _ (Fin (-40)) 22 10 1
              100000 Hup)
    as (r' & Hr' & _ & _ & Hneg & Hgrow); [reflexivity .. |].
  eexists. exists r'. split; [exact Hup |]. split; [exact Hr' |].
  split; [apply Hneg; lra | apply Hgrow; lra].
Defined.

(** X15: calcium feedback on the synthesis rate.  For positive eta, phi,
    G_dark, Ca_dark, K_GC and cooperativity m, the S returned by
    [update_states] lies strictly between 0 and the recomputed
    [S_max = eta / phi * G_dark * (1 + (Ca_dark / K_GC) ** m)], and a
    higher calcium concentration in the input state gives a strictly lower
    S. *)
Theorem synthesis_rate_decreases_with_calcium
    (self : Channel) (st1 st2 p new1 new2 : dict) (dt1 dt2 v1 v2 : fval)
    (eta phi G Ca K m c1 c2 : R) :
  let prefix := _name self in
  Phototransduction.update_states self st1 dt1 v1 p = Ok new1 →
  Phototransduction.update_states self st2 dt2 v2 p = Ok new2 →
  p !! (prefix +:+ "_eta") = Some (Fin eta) →
  p !! (prefix +:+ "_phi") = Some (Fin phi) →
  p !! (prefix +:+ "_G_dark") = Some (Fin G) →
  p !! (prefix +:+ "_Ca_dark") = Some (Fin Ca) →
  p !! (prefix +:+ "_K_GC") = Some (Fin K) →
  p !! (prefix +:+ "_m") = Some (Fin m) →
  st1 !! (prefix +:+ "_C") = Some (Fin c1) →
  st2 !! (prefix +:+ "_C") = Some (Fin c2) →
  (0 < eta)%R → (0 < phi)%R → (0 < G)%R → (0 < Ca)%R → (0 < K)%R →
  (0 < m)%R → (0 < c1 < c2)%R →
  ∃ s1 s2 : R,
    new1 !! (prefix +:+ "_S") = Some (Fin s1)
    ∧ new2 !! (prefix +:+ "_S") = Some (Fin s2)
    ∧ (0 < s2 < s1)%R
    ∧ (s1 < eta / phi * G * (1 + Rpower (Ca / K) m))%R.
Proof.
  intros prefix H1 H2 Heta Hphi HG HCa HK Hm HC1 HC2
    Heta0 Hphi0 HG0 HCa0 HK0 Hm0 Hc.
  assert (0 < Ca / K)%R as Hr by (by apply Rdiv_lt_0_compat).
  assert (0 < c1 / K)%R as Hr1 by (apply Rdiv_lt_0_compat; lra).
  assert (0 < c2 / K)%R as Hr2 by (apply Rdiv_lt_0_compat; lra).
  assert (c1 / K < c2 / K)%R as Hlt.
  { unfold Rdiv. apply Rmult_lt_compat_r; [by apply Rinv_0_lt_compat | lra]. }
  pose proof (Rlt_Rpower_l (c1 / K) (c2 / K) m Hm0 (conj Hr1 Hlt)) as Hmono.
  pose proof (Rpower_gt_0 (c1 / K) m) as HX1.
  pose proof (Rpower_gt_0 (Ca / K) m) as HX.
  assert (0 < eta / phi * G)%R as Hbase.
  { apply Rmult_lt_0_compat; [by apply Rdiv_lt_0_compat | done]. }
  unfold Phototransduction.update_states in H1, H2. cbv zeta in H1, H2.
  fold prefix in H1, H2. bind_inv H1. bind_inv H2. same_lookup.
  apply (f_equal (λ res : result dict,
                    match res with
                    | Ok d => d !! (prefix +:+ "_S")
                    | Raise _ => None
                    end)) in H1, H2.
  revert H1 H2. unfold mkdict. cbn [fold_left fst snd]. photo_lookup.
  float_simpl. cbn [fpow]. rewrite !Rpow_pos by lra. float_simpl.
  intros H1 H2.
  set (X := Rpower (Ca / K) m) in *. set (X1 := Rpower (c1 / K) m) in *.
  set (X2 := Rpower (c2 / K) m) in *. set (B := (eta / phi * G)%R) in *.
  exists (B * (1 + X) / (1 + X1))%R, (B * (1 + X) / (1 + X2))%R.
  split; [by rewrite <- H1 |]. split; [by rewrite <- H2 |].
  pose proof (Rinv_0_lt_compat (1 + X1) ltac:(lra)) as Hi1.
  pose proof (Rinv_0_lt_compat (1 + X2) ltac:(lra)) as Hi2.
  pose proof (Rinv_r (1 + X1) ltac:(lra)) as Hr1'.
  pose proof (Rinv_r (1 + X2) ltac:(lra)) as Hr2'.
  assert (0 < B * (1 + X))%R as HN by nra.
  unfold Rdiv. set (i1 := (/ (1 + X1))%R) in *.
  set (i2 := (/ (1 + X2))%R) in *. set (N := (B * (1 + X))%R) in *.
  assert (i2 < i1)%R as Hi by nra.
  assert (i1 < 1)%R as Hi1' by nra.
  repeat split; nra.
Qed.

(** The default parameters with calcium at 0.336 and at 1 micromolar. *)
Lemma synthesis_rate_decreases_with_calcium_witness :
  let self := {| _name := "Phototransduction" |} in
  let p := Phototransduction.channel_params self in
  let st1 := <["iPhoto" := Fin 0]> (Phototransduction.channel_states self) in
  let st2 := <["Phototransduction_C" := Fin 1]> st1 in
  ∃ (new1 new2 : dict) (s1 s2 : R),
    Phototransduction.update_states self st1 (Fin 0.025) (Fin (-40)) p
    = Ok new1
    ∧ Phototransduction.update_states self st2 (Fin 0.025) (Fin (-40)) p
      = Ok new2
    ∧ new1 !! "Phototransduction_S" = Some (Fin s1)
    ∧ new2 !! "Phototransduction_S" = Some (Fin s2)
    ∧ (0 < s2 < s1)%R.
Proof.
  intros self p st1 st2.
  eassert (Phototransduction.update_states self st1 (Fin 0.025) (Fin (-40)) p
           = Ok _) as H1 by reflexivity.
  eassert (Phototransduction.update_states self st2 (Fin 0.025) (Fin (-40)) p
           = Ok _) as H2 by reflexivity.
  destruct (synthesis_rate_decreases_with_calcium self st1 st2 p _ _
              (Fin 0.025) (Fin 0.025) (Fin (-40)) (Fin (-40))
              2000 22 20 1 0.5 4 0.336 1 H1 H2)
    as (s1 & s2 & Hs1 & Hs2 & Hlt & _);
    [reflexivity .. | lra | lra | lra | lra | lra | lra | lra |].
  do 2 eexists. exists s1, s2.
  split; [exact H1 |]. split; [exact H2 |].
  split; [exact Hs1 |]. split; [exact Hs2 |]. exact Hlt.
Defined.

(** ** The gate update at regular voltages *)

(** X16: where the rates are finite and positive (Na off -29 mV, CaL off
    3 mV, CaN off 20 mV, Kdr below -30 mV or above 0 mV), [update_states]
    with a nonnegative time step maps gate values in [0, 1] to gate values
    in [0, 1].  The host integrator is the spec's formula. *)
Theorem gates_stay_in_unit_interval_at_regular_voltages
    (self : Channel) (u p : dict) (dt V ms hs : R) :
  let prefix := _name self in
  (0 <= dt)%R → (0 <= ms <= 1)%R → (0 <= hs <= 1)%R →
  u !! (prefix +:+ "_m") = Some (Fin ms) →
  (V ≠ (-29)%R → u !! (prefix +:+ "_h") = Some (Fin hs) →
   ∃ ms' hs' : R,
     Na.update_states self u (Fin dt) (Fin V) p
     = Ok (mkdict [ (prefix +:+ "_m", Fin ms'); (prefix +:+ "_h", Fin hs') ])
     ∧ (0 <= ms' <= 1)%R ∧ (0 <= hs' <= 1)%R)
  ∧ ((V < -30 ∨ 0 < V)%R →
     ∃ ms' : R,
       Kdr.update_states self u (Fin dt) (Fin V) p
       = Ok (mkdict [ (prefix +:+ "_m", Fin ms') ])
       ∧ (0 <= ms' <= 1)%R)
  ∧ (V ≠ 3%R →
     ∃ ms' : R,
       CaL.update_states self u (Fin dt) (Fin V) p
       = Ok (mkdict [ (prefix +:+ "_m", Fin ms') ])
       ∧ (0 <= ms' <= 1)%R)
  ∧ (V ≠ 20%R → u !! (prefix +:+ "_h") = Some (Fin hs) →
     ∃ ms' hs' : R,
       CaN.update_states self u (Fin dt) (Fin V) p
       = Ok (mkdict [ (prefix +:+ "_m", Fin ms'); (prefix +:+ "_h", Fin hs') ])
       ∧ (0 <= ms' <= 1)%R ∧ (0 <= hs' <= 1)%R).
Proof.
  intros prefix Hdt Hms Hhs Hm. repeat apply conj.
  - intros HV Hh.
    by apply (Na_gates_stay_in_unit_interval self u p dt V ms hs).
  - intros HV. by apply (Kdr_gate_stays_in_unit_interval self u p dt V ms).
  - intros HV. by apply (CaL_gate_stays_in_unit_interval self u p dt V ms).
  - intros HV Hh.
    by apply (CaN_gates_stay_in_unit_interval self u p dt V ms hs).
Qed.

(** The declared states of the four channels at the resting voltage. *)
Lemma gates_stay_in_unit_interval_at_regular_voltages_witness :
  (∃ ms' hs' : R,
     Na.update_states {| _name := "Na" |}
       (Na.channel_states {| _name := "Na" |}) (Fin 0.025) (Fin (-65)) ∅
     = Ok (mkdict [ ("Na_m"%string, Fin ms'); ("Na_h"%string, Fin hs') ])
     ∧ (0 <= ms' <= 1)%R ∧ (0 <= hs' <= 1)%R)
  ∧ (∃ ms' : R,
       Kdr.update_states {| _name := "Kdr" |}
         (Kdr.channel_states {| _name := "Kdr" |}) (Fin 0.025) (Fin (-65)) ∅
       = Ok (mkdict [ ("Kdr_m"%string, Fin ms') ])
       ∧ (0 <= ms' <= 1)%R).
Proof.
  split.
  - destruct (gates_stay_in_unit_interval_at_regular_voltages
                {| _name := "Na" |} (Na.channel_states {| _name := "Na" |}) ∅
                0.025 (-65) 0.2 0.2) as (H & _);
      [lra | lra | lra | reflexivity |].
    apply H; [lra | reflexivity].
  - destruct (gates_stay_in_unit_interval_at_regular_voltages
                {| _name := "Kdr" |} (Kdr.channel_states {| _name := "Kdr" |})
                ∅ 0.025 (-65) 0.1 0.1) as (_ & H & _);
      [lra | lra | lra | reflexivity |].
    apply H. lra.
Defined.

Lemma gate_step_spec (a b x dt : R) :
  (a + b ≠ 0)%R →
  solve_gate_exponential (Fin x) (Fin dt) (Fin a) (Fin b)
  = Fin (gate_step a b x dt).
Proof. apply solve_gate_exponential_Fin. Qed.

Lemma gate_step_zero (a b x : R) : gate_step a b x 0 = x.
Proof.
  unfold gate_step. replace (- 0 * (a + b))%R with 0%R by lra.
  rewrite exp_0. lra.
Qed.

Lemma gate_step_compose (a b x d1 d2 : R) :
  gate_step a b (gate_step a b x d1) d2 = gate_step a b x (d1 + d2).
Proof.
  unfold gate_step.
  replace (- (d1 + d2) * (a + b))%R
    with (- d1 * (a + b) + - d2 * (a + b))%R by lra.
  rewrite exp_plus. lra.
Qed.

(** A step moves the gate toward the steady state without passing it. *)
Lemma gate_step_approach (a b x dt : R) :
  (0 < a + b)%R → (0 <= dt)%R →
  let x0 := (a / (a + b))%R in
  (Rabs (gate_step a b x dt - x0) <= Rabs (x - x0))%R
  ∧ (0 <= (gate_step a b x dt - x0) * (x - x0))%R
  ∧ ((0 < dt)%R → x ≠ x0 →
     (Rabs (gate_step a b x dt - x0) < Rabs (x - x0))%R).
Proof.
  intros Hab Hdt x0. unfold gate_step. fold x0.
  replace (x0 + (x - x0) * exp (- dt * (a + b)) - x0)%R
    with ((x - x0) * exp (- dt * (a + b)))%R by lra.
  pose proof (exp_pos (- dt * (a + b))) as HE.
  assert (exp (- dt * (a + b)) <= 1)%R as HE1.
  { destruct (Req_dec_T dt 0) as [-> | Hne].
    - right. rewrite <- exp_0. f_equal. lra.
    - left. apply exp_lt_1. nra. }
  set (E := exp (- dt * (a + b))) in *.
  rewrite Rabs_mult, (Rabs_right E) by lra.
  pose proof (Rabs_pos (x - x0)) as Hpos. repeat apply conj.
  - nra.
  - pose proof (Rle_0_sqr (x - x0)) as Hsq. unfold Rsqr in Hsq.
    set (d := (x - x0)%R) in *. nra.
  - intros Hdt' Hx. assert (E < 1)%R by (apply exp_lt_1; nra).
    assert (0 < Rabs (x - x0))%R by (apply Rabs_pos_lt; lra). nra.
Qed.

Ltac finite_gate Hfin key x E :=
  destruct (Hfin key) as [x E]; [declared_key |].

Ltac declared_cases Hk :=
  revert Hk; dom_declared; rewrite ?elem_of_union, ?elem_of_singleton;
  intros Hk; repeat destruct Hk as [Hk | Hk]; try (by apply elem_of_empty in Hk);
  subst.

(** X17: at a regular voltage and from finite gate values, [update_states]
    of Leak, Na, Kdr, CaL and CaN is additive in the time step: a zero step
    returns the gate values unchanged, and a step [d1] followed by a step
    [d2] at the same voltage returns what one step [d1 + d2] returns.  The
    host integrator is the spec's formula. *)
Theorem update_states_steps_add
    (c : model) (self : Channel) (u p : dict) (V d1 d2 : R) :
  regular_voltage c V → gates_finite c self u →
  (∃ u0 : dict,
     update_states_of c self u (Fin 0) (Fin V) p = Ok u0
     ∧ ∀ k, k ∈ dom (channel_states_of c self) → u0 !! k = u !! k)
  ∧ (∃ u1 : dict,
       update_states_of c self u (Fin d1) (Fin V) p = Ok u1
       ∧ is_Ok (update_states_of c self u1 (Fin d2) (Fin V) p)
       ∧ update_states_of c self u1 (Fin d2) (Fin V) p
         = update_states_of c self u (Fin (d1 + d2)) (Fin V) p).
Proof.
  intros HV Hfin. destruct c; cbn [regular_voltage update_states_of] in *;
    [| | | | | done].
  - split; eexists; (split; [reflexivity |]).
    + intros k Hk. declared_cases Hk.
    + split; [apply is_Ok_Ok | reflexivity].
  - finite_gate Hfin (_name self +:+ "_m") ms Hm.
    finite_gate Hfin (_name self +:+ "_h") hs Hh.
    destruct (Na_m_rates_pos V HV) as [Ha Hb].
    destruct (Na_h_rates_pos V) as [Ha' Hb'].
    unfold Na.update_states, getitem. cbv zeta. rewrite Hm, Hh.
    rewrite Na_m_gate_regular by done. rewrite Na_h_gate_regular.
    cbn [mbind result_bind uncurry]. rewrite !gate_step_spec by lra.
    split; eexists; (split; [reflexivity |]).
    + intros k Hk. rewrite !gate_step_zero. unfold mkdict.
      cbn [fold_left fst snd]. declared_cases Hk; by dict_lookup.
    + unfold mkdict. cbn [fold_left fst snd]. dict_lookup.
      cbn [mbind result_bind uncurry]. rewrite !gate_step_spec by lra.
      rewrite !gate_step_compose. split; [apply is_Ok_Ok | reflexivity].
  - finite_gate Hfin (_name self +:+ "_m") ms Hm.
    destruct (Kdr_m_rates_pos V HV) as [Ha Hb].
    unfold Kdr.update_states, getitem. cbv zeta. rewrite Hm.
    rewrite Kdr_m_gate_regular by lra.
    cbn [mbind result_bind uncurry]. rewrite !gate_step_spec by lra.
    split; eexists; (split; [reflexivity |]).
    + intros k Hk. rewrite !gate_step_zero. unfold mkdict.
      cbn [fold_left fst snd]. declared_cases Hk; by dict_lookup.
    + unfold mkdict. cbn [fold_left fst snd]. dict_lookup.
      cbn [mbind result_bind uncurry]. rewrite !gate_step_spec by lra.
      rewrite !gate_step_compose. split; [apply is_Ok_Ok | reflexivity].
  - finite_gate Hfin (_name self +:+ "_m") ms Hm.
    destruct (CaL_m_rates_pos V HV) as [Ha Hb].
    unfold CaL.update_states, getitem. cbv zeta. rewrite Hm.
    rewrite CaL_m_gate_regular by done.
    cbn [mbind result_bind uncurry]. rewrite !gate_step_spec by lra.
    split; eexists; (split; [reflexivity |]).
    + intros k Hk. rewrite !gate_step_zero. unfold mkdict.
      cbn [fold_left fst snd]. declared_cases Hk; by dict_lookup.
    + unfold mkdict. cbn [fold_left fst snd]. dict_lookup.
      cbn [mbind result_bind uncurry]. rewrite !gate_step_spec by lra.
      rewrite !gate_step_compose. split; [apply is_Ok_Ok | reflexivity].
  - finite_gate Hfin (_name self +:+ "_m") ms Hm.
    finite_gate Hfin (_name self +:+ "_h") hs Hh.
    destruct (CaN_m_rates_pos V HV) as [Ha Hb].
    destruct (CaN_h_rates_pos V) as [Ha' Hb'].
    unfold CaN.update_states, getitem. cbv zeta. rewrite Hm, Hh.
    rewrite CaN_m_gate_regular by done. rewrite CaN_h_gate_regular.
    cbn [mbind result_bind uncurry]. rewrite !gate_step_spec by lra.
    split; eexists; (split; [reflexivity |]).
    + intros k Hk. rewrite !gate_step_zero. unfold mkdict.
      cbn [fold_left fst snd]. declared_cases Hk; by dict_lookup.
    + unfold mkdict. cbn [fold_left fst snd]. dict_lookup.
      cbn [mbind result_bind uncurry]. rewrite !gate_step_spec by lra.
      rewrite !gate_step_compose. split; [apply is_Ok_Ok | reflexivity].
Qed.

(** The sodium channel from its declared states at the resting voltage:
    steps of 0.025 ms and 0.05 ms. *)
Lemma update_states_steps_add_witness :
  let na := {| _name := "Na" |} in
  ∃ u1 : dict,
    Na.update_states na (Na.channel_states na) (Fin 0.025) (Fin (-65)) ∅
    = Ok u1
    ∧ Na.update_states na u1 (Fin 0.05) (Fin (-65)) ∅
      = Na.update_states na (Na.channel_states na) (Fin (0.025 + 0.05))
          (Fin (-65)) ∅.
Proof.
  intros na.
  destruct (update_states_steps_add Na_model na (Na.channel_states na) ∅
              (-65) 0.025 0.05) as (_ & u1 & H1 & _ & H2).
  - simpl. lra.
  - intros k Hk. change (channel_states_of Na_model na) with
      (Na.channel_states na) in Hk.
    apply elem_of_dom in Hk as [x Hx]. revert Hx.
    unfold Na.channel_states, mkdict. cbn [fold_left fst snd _name na].
    rewrite !lookup_insert. repeat case_decide; subst;
      rewrite ?lookup_empty; intros [= <-]; by eexists.
  - exists u1. split; [exact H1 | exact H2].
Defined.

(** X18: at a regular voltage, each call of [update_states] with a
    nonnegative time step moves every finite gate toward the value
    [init_state] returns at that voltage, without passing it: the distance
    to it does not increase, and decreases strictly for a positive step
    from any other value.  The host integrator is the spec's formula. *)
Theorem update_states_approaches_init_state
    (c : model) (self : Channel) (u p : dict) (V dt : R) :
  regular_voltage c V → gates_finite c self u → (0 <= dt)%R →
  ∃ s0 new : dict,
    init_state_of c self (Fin V) p = Ok s0
    ∧ update_states_of c self u (Fin dt) (Fin V) p = Ok new
    ∧ ∀ k, k ∈ dom (channel_states_of c self) →
        ∃ x0 x x' : R,
          s0 !! k = Some (Fin x0) ∧ u !! k = Some (Fin x)
          ∧ new !! k = Some (Fin x')
          ∧ (Rabs (x' - x0) <= Rabs (x - x0))%R
          ∧ (0 <= (x' - x0) * (x - x0))%R
          ∧ ((0 < dt)%R → x ≠ x0 → (Rabs (x' - x0) < Rabs (x - x0))%R).
Proof.
  intros HV Hfin Hdt.
  destruct c; cbn [regular_voltage update_states_of init_state_of] in *;
    [| | | | | done].
  - do 2 eexists. split; [reflexivity |]. split; [reflexivity |].
    intros k Hk. declared_cases Hk.
  - finite_gate Hfin (_name self +:+ "_m") ms Hm.
    finite_gate Hfin (_name self +:+ "_h") hs Hh.
    destruct (Na_m_rates_pos V HV) as [Ha Hb].
    destruct (Na_h_rates_pos V) as [Ha' Hb'].
    unfold Na.init_state, Na.update_states, getitem. cbv zeta.
    rewrite Hm, Hh. rewrite Na_m_gate_regular by done.
    rewrite Na_h_gate_regular.
    cbn [mbind result_bind uncurry]. rewrite !gate_step_spec by lra.
    float_simpl. do 2 eexists. split; [reflexivity |].
    split; [reflexivity |]. unfold mkdict. cbn [fold_left fst snd].
    intros k Hk. declared_cases Hk; do 3 eexists; dict_lookup;
      (split; [reflexivity |]); (split; [eassumption |]);
      (split; [reflexivity |]); apply gate_step_approach; lra.
  - finite_gate Hfin (_name self +:+ "_m") ms Hm.
    destruct (Kdr_m_rates_pos V HV) as [Ha Hb].
    unfold Kdr.init_state, Kdr.update_states, getitem. cbv zeta.
    rewrite Hm. rewrite Kdr_m_gate_regular by lra.
    cbn [mbind result_bind uncurry]. rewrite !gate_step_spec by lra.
    float_simpl. do 2 eexists. split; [reflexivity |].
    split; [reflexivity |]. unfold mkdict. cbn [fold_left fst snd].
    intros k Hk. declared_cases Hk; do 3 eexists; dict_lookup;
      (split; [reflexivity |]); (split; [eassumption |]);
      (split; [reflexivity |]); apply gate_step_approach; lra.
  - finite_gate Hfin (_name self +:+ "_m") ms Hm.
    destruct (CaL_m_rates_pos V HV) as [Ha Hb].
    unfold CaL.init_state, CaL.update_states, getitem. cbv zeta.
    rewrite Hm. rewrite CaL_m_gate_regular by done.
    cbn [mbind result_bind uncurry]. rewrite !gate_step_spec by lra.
    float_simpl. do 2 eexists. split; [reflexivity |].
    split; [reflexivity |]. unfold mkdict. cbn [fold_left fst snd].
    intros k Hk. declared_cases Hk; do 3 eexists; dict_lookup;
      (split; [reflexivity |]); (split; [eassumption |]);
      (split; [reflexivity |]); apply gate_step_approach; lra.
  - finite_gate Hfin (_name self +:+ "_m") ms Hm.
    finite_gate Hfin (_name self +:+ "_h") hs Hh.
    destruct (CaN_m_rates_pos V HV) as [Ha Hb].
    destruct (CaN_h_rates_pos V) as [Ha' Hb'].
    unfold CaN.init_state, CaN.update_states, getitem. cbv zeta.
    rewrite Hm, Hh. rewrite CaN_m_gate_regular by done.
    rewrite CaN_h_gate_regular.
    cbn [mbind result_bind uncurry]. rewrite !gate_step_spec by lra.
    float_simpl. do 2 eexists. split; [reflexivity |].
    split; [reflexivity |]. unfold mkdict. cbn [fold_left fst snd].
    intros k Hk. declared_cases Hk; do 3 eexists; dict_lookup;
      (split; [reflexivity |]); (split; [eassumption |]);
      (split; [reflexivity |]); apply gate_step_approach; lra.
Qed.

(** The sodium channel from its declared states at the resting voltage. *)
Lemma update_states_approaches_init_state_witness :
  let na := {| _name := "Na" |} in
  ∃ (s0 new : dict) (x0 x' : R),
    Na.init_state na (Fin (-65)) ∅ = Ok s0
    ∧ Na.update_states na (Na.channel_states na) (Fin 0.025) (Fin (-65)) ∅
      = Ok new
    ∧ s0 !! "Na_m" = Some (Fin x0) ∧ new !! "Na_m" = Some (Fin x')
    ∧ (Rabs (x' - x0) <= Rabs (0.2 - x0))%R.
Proof.
  intros na.
  destruct (update_states_approaches_init_state Na_model na
              (Na.channel_states na) ∅ (-65) 0.025)
    as (s0 & new & Hinit & Hup & Hgates).
  - simpl. lra.
  - intros k Hk. change (channel_states_of Na_model na) with
      (Na.channel_states na) in Hk.
    apply elem_of_dom in Hk as [x Hx]. revert Hx.
    unfold Na.channel_states, mkdict. cbn [fold_left fst snd _name na].
    rewrite !lookup_insert. repeat case_decide; subst;
      rewrite ?lookup_empty; intros [= <-]; by eexists.
  - lra.
  - destruct (Hgates "Na_m") as (x0 & x & x' & H0 & Hx & Hx' & Hle & _).
    { apply elem_of_dom. by eexists. }
    assert (x = 0.2%R) as -> by (by injection Hx as <-).
    exists s0, new, x0, x'. by repeat split.
Defined.

(** X19: the phototransduction channel reads neither the voltage nor the
    declared parameter [h]: [update_states], [compute_current] and
    [init_state] return the same result at any two voltages and for any two
    parameter dictionaries that agree on every key other than [h]. *)
Theorem Phototransduction_ignores_voltage_and_h
    (self : Channel) (states p p' : dict) (dt v v' : fval) :
  let prefix := _name self in
  (∀ k, k ≠ prefix +:+ "_h" → p !! k = p' !! k) →
  Phototransduction.update_states self states dt v p
  = Phototransduction.update_states self states dt v' p'
  ∧ Phototransduction.compute_current self states v p
    = Phototransduction.compute_current self states v' p'
  ∧ Phototransduction.init_state self v p
    = Phototransduction.init_state self v' p'.
Proof.
  intros prefix Hagree.
  unfold Phototransduction.update_states, Phototransduction.compute_current,
    Phototransduction.init_state, getitem. fold prefix.
  rewrite !(Hagree (prefix +:+ "_gamma")) by key_neq.
  rewrite !(Hagree (prefix +:+ "_sigma")) by key_neq.
  rewrite !(Hagree (prefix +:+ "_phi")) by key_neq.
  rewrite !(Hagree (prefix +:+ "_eta")) by key_neq.
  rewrite !(Hagree (prefix +:+ "_q")) by key_neq.
  rewrite !(Hagree (prefix +:+ "_beta")) by key_neq.
  rewrite !(Hagree (prefix +:+ "_S_max")) by key_neq.
  rewrite !(Hagree (prefix +:+ "_K_GC")) by key_neq.
  rewrite !(Hagree (prefix +:+ "_m")) by key_neq.
  rewrite !(Hagree (prefix +:+ "_k")) by key_neq.
  rewrite !(Hagree (prefix +:+ "_n")) by key_neq.
  rewrite !(Hagree (prefix +:+ "_I_dark")) by key_neq.
  rewrite !(Hagree (prefix +:+ "_Ca_dark")) by key_neq.
  rewrite !(Hagree (prefix +:+ "_G_dark")) by key_neq.
  done.
Qed.

(** The default parameters against the same dictionary without [h], at two
    voltages. *)
Lemma Phototransduction_ignores_voltage_and_h_witness :
  let self := {| _name := "Phototransduction" |} in
  let p := Phototransduction.channel_params self in
  let states :=
    <["iPhoto" := Fin 0]> (Phototransduction.channel_states self) in
  Phototransduction.update_states self states (Fin 0.025) (Fin (-40)) p
  = Phototransduction.update_states self states (Fin 0.025) (Fin 0)
      (delete "Phototransduction_h" p).
Proof.
  intros self p states.
  apply (Phototransduction_ignores_voltage_and_h self states p
           (delete "Phototransduction_h" p) (Fin 0.025) (Fin (-40)) (Fin 0)).
  intros k Hk. by rewrite lookup_delete_ne.
Defined.
